(** * cclog: the SQLite store and the incremental sync engine

    A shallow embedding of [src/db.ts] (class [Database]), of the schema
    it loads ([schema.sql]) and of [src/sync.ts] (function [sync]).

    Tables are finite maps keyed by their PRIMARY KEY; a nullable column
    is an [option]; a JavaScript [number] holding a millisecond timestamp,
    a byte offset or a token count is a [Z]. *)

From Stdlib Require Import ZArith Ascii String.
From stdpp Require Import gmap strings list sorting.

Local Open Scope string_scope.
Local Open Scope list_scope.
Local Open Scope Z_scope.

(** ** SQL scalar functions used by the statements *)

(** [MAX(a, b)] with two arguments is SQLite's scalar max: NULL as soon
    as one argument is NULL. *)
Definition sql_max (a b : option Z) : option Z :=
  match a, b with
  | Some x, Some y => Some (Z.max x y)
  | _, _ => None
  end.

(** [COALESCE(a, b)]: the first argument that is not NULL. *)
Definition coalesce {A : Type} (a b : option A) : option A :=
  match a with
  | Some x => Some x
  | None => b
  end.

(** [SUM(col)]: the sum of the non-NULL values, NULL when there is none. *)
Definition sql_sum (vs : list (option Z)) : option Z :=
  foldr (fun v acc => match v with
                      | Some x => Some (x + default 0 acc)
                      | None => acc
                      end) None vs.

(** ** Rows ([schema.sql]) and statement arguments ([db.ts]) *)

Module SessionArg.
(** The argument object of [Database.upsert_session]. *)
Record t := mk {
  id : string;
  project_path : string;
  git_branch : option string;
  cwd : option string;
  timestamp : Z;
  summary : option string
}.
End SessionArg.

Module SessionRow.
(** [CREATE TABLE sessions]. *)
Record t := mk {
  id : string;
  project_path : string;
  git_branch : option string;
  cwd : option string;
  first_timestamp : option Z;
  last_timestamp : option Z;
  summary : option string
}.
End SessionRow.

Module MessageArg.
(** The argument object of [Database.insert_message]. *)
Record t := mk {
  uuid : string;
  session_id : string;
  parent_uuid : option string;
  type : string;
  model : option string;
  content_text : option string;
  content_json : option string;
  thinking : option string;
  timestamp : Z;
  input_tokens : option Z;
  output_tokens : option Z;
  cache_read_tokens : option Z;
  cache_creation_tokens : option Z
}.
End MessageArg.

Module MessageRow.
(** [CREATE TABLE messages]. *)
Record t := mk {
  uuid : string;
  session_id : string;
  parent_uuid : option string;
  type : string;
  model : option string;
  content_text : option string;
  content_json : option string;
  thinking : option string;
  timestamp : Z;
  input_tokens : option Z;
  output_tokens : option Z;
  cache_read_tokens : option Z;
  cache_creation_tokens : option Z
}.
End MessageRow.

Module SyncStateRow.
(** [CREATE TABLE sync_state], without its key [file_path]. *)
Record t := mk {
  last_modified : Z;
  last_byte_offset : Z
}.
End SyncStateRow.

Module ToolCallRow.
(** The object [sync] hands to [db.insert_tool_call]. *)
Record t := mk {
  id : string;
  message_uuid : string;
  session_id : string;
  tool_name : string;
  tool_input : string;
  timestamp : Z
}.
End ToolCallRow.

Module ToolResultRow.
(** The object [sync] hands to [db.insert_tool_result]. *)
Record t := mk {
  tool_call_id : string;
  message_uuid : string;
  session_id : string;
  content : string;
  is_error : bool;
  timestamp : Z
}.
End ToolResultRow.

(** The tables of one database file: [sessions], [messages] and
    [sync_state] of [schema.sql], and the tables of tool calls and tool
    results that [sync] fills; [schema.sql] has not got these two, the
    rows are the objects [sync] inserts and the key is the identifier, as
    in the spec. *)
Record Tables := mkTables {
  sessions : gmap string SessionRow.t;
  messages : gmap string MessageRow.t;
  tool_calls : gmap string ToolCallRow.t;
  tool_results : gmap string ToolResultRow.t;
  sync_state : gmap string SyncStateRow.t
}.

Definition empty_tables : Tables :=
  mkTables ∅ ∅ ∅ ∅ ∅.

(** ** The connection *)

(** A [Database] object: what its statements read and write ([tables]),
    what is durable in the file ([committed]), whether a transaction is
    open, and the connection's [PRAGMA foreign_keys]. *)
Record Database := mkDatabase {
  tables : Tables;
  committed : Tables;
  in_transaction : bool;
  foreign_keys : bool
}.

Inductive Error :=
  | SQLITE_CONSTRAINT_FOREIGNKEY
  | SQLITE_ERROR_TRANSACTION
  | READ_FAILURE.

(** What a call does: it returns, or it throws and leaves the connection
    in the state [db]. *)
Inductive Outcome (A : Type) :=
  | Returned (a : A)
  | Thrown (e : Error) (db : Database).
Arguments Returned {A} a.
Arguments Thrown {A} e db.

#[global] Instance Outcome_ret : MRet Outcome := fun A a => Returned a.
#[global] Instance Outcome_bind : MBind Outcome := fun A B k m =>
  match m with
  | Returned a => k a
  | Thrown e db => Thrown e db
  end.

(** [new Database(path)] on a file holding [t]: foreign keys enforced,
    no transaction open ([CREATE TABLE IF NOT EXISTS] keeps the rows). *)
Definition open (t : Tables) : Database :=
  mkDatabase t t false true.

(** A write statement outside a transaction is committed on its own. *)
Definition write (f : Tables -> Tables) (db : Database) : Database :=
  let t := f (tables db) in
  mkDatabase t (if in_transaction db then committed db else t)
             (in_transaction db) (foreign_keys db).

(** *** [upsert_session] *)

Definition session_insert_row (s : SessionArg.t) : SessionRow.t :=
  SessionRow.mk (SessionArg.id s) (SessionArg.project_path s)
                (SessionArg.git_branch s) (SessionArg.cwd s)
                (Some (SessionArg.timestamp s)) (Some (SessionArg.timestamp s))
                (SessionArg.summary s).

(** [ON CONFLICT(id) DO UPDATE SET last_timestamp = ..., summary = ...]. *)
Definition session_conflict_row (old excluded : SessionRow.t) : SessionRow.t :=
  SessionRow.mk (SessionRow.id old) (SessionRow.project_path old)
                (SessionRow.git_branch old) (SessionRow.cwd old)
                (SessionRow.first_timestamp old)
                (sql_max (SessionRow.last_timestamp old)
                         (SessionRow.last_timestamp excluded))
                (coalesce (SessionRow.summary excluded) (SessionRow.summary old)).

Definition upsert_session_tables (s : SessionArg.t) (t : Tables) : Tables :=
  let excluded := session_insert_row s in
  let row := match sessions t !! SessionArg.id s with
             | None => excluded
             | Some old => session_conflict_row old excluded
             end in
  mkTables (<[SessionArg.id s := row]> (sessions t)) (messages t)
           (tool_calls t) (tool_results t) (sync_state t).

Definition upsert_session (s : SessionArg.t) (db : Database) : Database :=
  write (upsert_session_tables s) db.

(** *** [insert_message] *)

Definition message_insert_row (m : MessageArg.t) : MessageRow.t :=
  MessageRow.mk (MessageArg.uuid m) (MessageArg.session_id m)
                (MessageArg.parent_uuid m) (MessageArg.type m)
                (MessageArg.model m) (MessageArg.content_text m)
                (MessageArg.content_json m) (MessageArg.thinking m)
                (MessageArg.timestamp m)
                (Some (default 0 (MessageArg.input_tokens m)))
                (Some (default 0 (MessageArg.output_tokens m)))
                (Some (default 0 (MessageArg.cache_read_tokens m)))
                (Some (default 0 (MessageArg.cache_creation_tokens m))).

Definition insert_message_tables (m : MessageArg.t) (t : Tables) : Tables :=
  mkTables (sessions t)
           (<[MessageArg.uuid m := message_insert_row m]> (messages t))
           (tool_calls t) (tool_results t) (sync_state t).

(** [INSERT OR IGNORE]: a row whose [uuid] is taken is skipped before the
    foreign key on [session_id] is looked at; a new row whose session is
    missing fails the statement when foreign keys are enforced. *)
Definition insert_message (m : MessageArg.t) (db : Database) : Outcome Database :=
  match messages (tables db) !! MessageArg.uuid m with
  | Some _ => Returned db
  | None =>
      if foreign_keys db
         && bool_decide (sessions (tables db) !! MessageArg.session_id m = None)
      then Thrown SQLITE_CONSTRAINT_FOREIGNKEY db
      else Returned (write (insert_message_tables m) db)
  end.

(** *** [get_sync_state], [set_sync_state] *)

Definition get_sync_state (file_path : string) (db : Database)
  : option SyncStateRow.t :=
  sync_state (tables db) !! file_path.

Definition set_sync_state_tables (file_path : string)
    (last_modified last_byte_offset : Z) (t : Tables) : Tables :=
  mkTables (sessions t) (messages t) (tool_calls t) (tool_results t)
           (<[file_path := SyncStateRow.mk last_modified last_byte_offset]>
              (sync_state t)).

Definition set_sync_state (file_path : string)
    (last_modified last_byte_offset : Z) (db : Database) : Database :=
  write (set_sync_state_tables file_path last_modified last_byte_offset) db.

(** *** [get_stats] *)

Record TokenSums := mkTokenSums {
  input : option Z;
  output : option Z;
  cache_read : option Z;
  cache_creation : option Z
}.

(** The object [get_stats] returns. *)
Record Stats := mkStats {
  stats_sessions : nat;
  stats_messages : nat;
  stats_tokens : TokenSums
}.

Definition column {A : Type} (f : MessageRow.t -> A)
    (m : gmap string MessageRow.t) : list A :=
  f <$> (snd <$> map_to_list m).

Definition get_stats (db : Database) : Stats :=
  let t := tables db in
  mkStats (size (sessions t)) (size (messages t))
          (mkTokenSums
             (sql_sum (column MessageRow.input_tokens (messages t)))
             (sql_sum (column MessageRow.output_tokens (messages t)))
             (sql_sum (column MessageRow.cache_read_tokens (messages t)))
             (sql_sum (column MessageRow.cache_creation_tokens (messages t)))).

(** Modelled from the spec: the count [sync] reads as [stats.tool_calls]
    from the object [get_stats] returns, the "stored secondary-entity
    count"; the [get_stats] of [src/db.ts] has no such field. *)
Definition stats_tool_calls (db : Database) : nat :=
  size (tool_calls (tables db)).

(** *** Methods [sync] calls that [src/db.ts] does not have *)

(** Modelled from the spec: [insert_tool_call], missing from [src/db.ts];
    "insert-or-ignore keyed by unique identifier: duplicate identifier is
    a deliberate no-op, not an error". *)
Definition insert_tool_call (c : ToolCallRow.t) (db : Database) : Database :=
  match tool_calls (tables db) !! ToolCallRow.id c with
  | Some _ => db
  | None =>
      write (fun t => mkTables (sessions t) (messages t)
                        (<[ToolCallRow.id c := c]> (tool_calls t))
                        (tool_results t) (sync_state t)) db
  end.

(** Modelled from the spec: [insert_tool_result], missing from
    [src/db.ts]; the same insert-or-ignore, the identifier of a tool
    result being its [tool_call_id]. *)
Definition insert_tool_result (r : ToolResultRow.t) (db : Database) : Database :=
  match tool_results (tables db) !! ToolResultRow.tool_call_id r with
  | Some _ => db
  | None =>
      write (fun t => mkTables (sessions t) (messages t) (tool_calls t)
                        (<[ToolResultRow.tool_call_id r := r]> (tool_results t))
                        (sync_state t)) db
  end.

(** Modelled from the spec: [reset_sync_state], missing from [src/db.ts];
    "clear every stored sync cursor (force full re-scan) without deleting
    any existing row". *)
Definition reset_sync_state (db : Database) : Database :=
  write (fun t => mkTables (sessions t) (messages t) (tool_calls t)
                    (tool_results t) ∅) db.

(** Modelled from the spec: [begin], missing from [src/db.ts]; "the whole
    run is wrapped in a single transaction". SQLite refuses a transaction
    inside a transaction. *)
Definition begin (db : Database) : Outcome Database :=
  if in_transaction db then Thrown SQLITE_ERROR_TRANSACTION db
  else Returned (mkDatabase (tables db) (committed db) true (foreign_keys db)).

(** Modelled from the spec: [commit], missing from [src/db.ts]; "nothing
    is durable until the single commit at the end". SQLite refuses a
    commit when no transaction is open. *)
Definition commit (db : Database) : Outcome Database :=
  if in_transaction db
  then Returned (mkDatabase (tables db) (tables db) false (foreign_keys db))
  else Thrown SQLITE_ERROR_TRANSACTION db.

(** Modelled from the spec: [PRAGMA foreign_keys], behind
    [disable_foreign_keys] and [enable_foreign_keys]; the pragma does
    nothing while a transaction is open. *)
Definition set_foreign_keys (on : bool) (db : Database) : Database :=
  if in_transaction db then db
  else mkDatabase (tables db) (committed db) (in_transaction db) on.

(** Modelled from the spec: [disable_foreign_keys], missing from
    [src/db.ts]; "referential-integrity checks suspended for the
    duration". *)
Definition disable_foreign_keys : Database -> Database := set_foreign_keys false.

(** Modelled from the spec: [enable_foreign_keys], missing from
    [src/db.ts]; "(re-enabled at the end)". *)
Definition enable_foreign_keys : Database -> Database := set_foreign_keys true.

(** What the file holds once the process has gone: an open transaction
    is rolled back. *)
Definition durable (db : Database) : Tables := committed db.

(** *** [get_messages_around] *)

(** Chronological order of two messages. *)
Definition chronological (a b : MessageRow.t) : Prop :=
  MessageRow.timestamp a ≤ MessageRow.timestamp b.

#[global] Instance chronological_dec (a b : MessageRow.t) :
  Decision (chronological a b) := Z.le_dec _ _.

(** The stored messages of a session, oldest first. *)
Definition session_messages (session_id : string) (d : Database)
  : list MessageRow.t :=
  merge_sort chronological
    (filter (λ m, MessageRow.session_id m = session_id)
            (snd <$> map_to_list (messages (tables d)))).

Record Around := mkAround {
  before : list MessageRow.t;
  after : list MessageRow.t
}.

(** The last [count] elements of a list. *)
Definition take_last {A : Type} (count : nat) (l : list A) : list A :=
  drop (length l - count) l.

(** Modelled from the spec: [get_messages_around], missing from
    [src/db.ts] (the tests call it); "given a session id, an anchor
    timestamp, and a window size N, returns up to N messages strictly
    before and up to N strictly after the anchor, each sub-list
    chronologically ordered, scoped to that session only". The messages
    returned are those nearest to the anchor on each side. *)
Definition get_messages_around (session_id : string) (timestamp : Z)
    (count : nat) (d : Database) : Around :=
  let ms := session_messages session_id d in
  mkAround
    (take_last count (filter (λ m, MessageRow.timestamp m < timestamp) ms))
    (take count (filter (λ m, timestamp < MessageRow.timestamp m) ms)).

(** The stored messages of a session on one side of an anchor. *)
Definition stored_before (session_id : string) (timestamp : Z) (d : Database)
  : list MessageRow.t :=
  filter (λ m, MessageRow.session_id m = session_id
               ∧ MessageRow.timestamp m < timestamp)
         (snd <$> map_to_list (messages (tables d))).

Definition stored_after (session_id : string) (timestamp : Z) (d : Database)
  : list MessageRow.t :=
  filter (λ m, MessageRow.session_id m = session_id
               ∧ timestamp < MessageRow.timestamp m)
         (snd <$> map_to_list (messages (tables d))).

(** A row of the table of messages that belongs to the session. *)
Definition message_of (session_id : string) (d : Database) (m : MessageRow.t)
  : Prop :=
  MessageRow.session_id m = session_id
  ∧ ∃ uuid, messages (tables d) !! uuid = Some m.

(** ** The parser's records and the files ([sync.ts]) *)

Module ParsedToolCall.
Record t := mk {
  id : string;
  tool_name : string;
  tool_input : string
}.
End ParsedToolCall.

Module ParsedToolResult.
Record t := mk {
  tool_call_id : string;
  content : string;
  is_error : bool
}.
End ParsedToolResult.

Module ParsedMessage.
(** The [message] of a pair [{ message, byte_offset }] that
    [parse_file] yields, with the fields [sync] reads. *)
Record t := mk {
  uuid : string;
  session_id : string;
  parent_uuid : option string;
  type : string;
  model : option string;
  content_text : option string;
  content_json : option string;
  thinking : option string;
  timestamp : Z;
  input_tokens : option Z;
  output_tokens : option Z;
  cache_read_tokens : option Z;
  cache_creation_tokens : option Z;
  git_branch : option string;
  cwd : option string;
  summary : option string;
  tool_calls : list ParsedToolCall.t;
  tool_results : list ParsedToolResult.t
}.
End ParsedMessage.

(** One iteration of [for await (... of parse_file(file_path, start_offset))]:
    the pairs the generator yields, and whether it then throws (the file
    cannot be read) instead of finishing. *)
Record Parse := mkParse {
  yielded : list (ParsedMessage.t * Z);
  throws : bool
}.

(** What [sync] sees of the file system. [parser.ts] is not part of the
    development: [parse_file] is whatever the parser does on the files. *)
Record Files := mkFiles {
  lastModified : string -> Z;
  parse_file : string -> Z -> Parse;
  relative_to_projects_dir : string -> string
}.

(** *** [extract_project_path] *)

(** [rel.split('/')[0]] *)
Fixpoint first_component (rel : string) : string :=
  match rel with
  | EmptyString => EmptyString
  | String c rest =>
      if Ascii.eqb c "/"%char then EmptyString
      else String c (first_component rest)
  end.

(** [.replace(/-/g, '/')] *)
Fixpoint replace_hyphens (x : string) : string :=
  match x with
  | EmptyString => EmptyString
  | String c rest =>
      String (if Ascii.eqb c "-"%char then "/"%char else c) (replace_hyphens rest)
  end.

Definition extract_project_path (fs : Files) (file_path : string) : string :=
  let rel := relative_to_projects_dir fs file_path in
  let project_dir := first_component rel in
  match project_dir with
  | String "-"%char rest => replace_hyphens rest
  | _ => project_dir
  end.

(** ** [sync] *)

Record SyncResult := mkSyncResult {
  files_scanned : nat;
  files_processed : nat;
  messages_added : nat;
  sessions_added : nat;
  tool_calls_added : nat;
  tool_results_added : nat
}.

(** The calls [sync] makes on [db] that write. *)
Inductive Statement :=
  | UpsertSession (s : SessionArg.t)
  | InsertMessage (m : MessageArg.t)
  | InsertToolCall (c : ToolCallRow.t)
  | InsertToolResult (r : ToolResultRow.t)
  | SetSyncState (file_path : string) (last_modified last_byte_offset : Z)
  | ResetSyncState
  | DisableForeignKeys
  | Begin
  | Commit
  | EnableForeignKeys.

Definition exec (c : Statement) (db : Database) : Outcome Database :=
  match c with
  | UpsertSession s => Returned (upsert_session s db)
  | InsertMessage m => insert_message m db
  | InsertToolCall c => Returned (insert_tool_call c db)
  | InsertToolResult r => Returned (insert_tool_result r db)
  | SetSyncState f lm off => Returned (set_sync_state f lm off db)
  | ResetSyncState => Returned (reset_sync_state db)
  | DisableForeignKeys => Returned (disable_foreign_keys db)
  | Begin => begin db
  | Commit => commit db
  | EnableForeignKeys => Returned (enable_foreign_keys db)
  end.

(** The variables of a run: the connection, [seen_sessions], [result],
    and the writing calls made so far, oldest first. *)
Record Run := mkRun {
  db : Database;
  seen_sessions : gset string;
  result : SyncResult;
  journal : list Statement
}.

Definition call (c : Statement) (r : Run) : Outcome Run :=
  db' ← exec c (db r);
  mret (mkRun db' (seen_sessions r) (result r) (journal r ++ [c])).

Definition with_result (f : SyncResult -> SyncResult) (r : Run) : Run :=
  mkRun (db r) (seen_sessions r) (f (result r)) (journal r).

Definition incr_sessions_added (x : SyncResult) : SyncResult :=
  mkSyncResult (files_scanned x) (files_processed x) (messages_added x)
               (S (sessions_added x)) (tool_calls_added x) (tool_results_added x).

Definition incr_tool_calls_added (x : SyncResult) : SyncResult :=
  mkSyncResult (files_scanned x) (files_processed x) (messages_added x)
               (sessions_added x) (S (tool_calls_added x)) (tool_results_added x).

Definition incr_tool_results_added (x : SyncResult) : SyncResult :=
  mkSyncResult (files_scanned x) (files_processed x) (messages_added x)
               (sessions_added x) (tool_calls_added x) (S (tool_results_added x)).

Definition add_file_messages (n : nat) (x : SyncResult) : SyncResult :=
  mkSyncResult (files_scanned x) (S (files_processed x)) (messages_added x + n)
               (sessions_added x) (tool_calls_added x) (tool_results_added x).

Definition set_files_scanned (n : nat) (x : SyncResult) : SyncResult :=
  mkSyncResult n (files_processed x) (messages_added x)
               (sessions_added x) (tool_calls_added x) (tool_results_added x).

(** [db.insert_message(message)]: the fields [insert_message] reads. *)
Definition message_arg (m : ParsedMessage.t) : MessageArg.t :=
  MessageArg.mk (ParsedMessage.uuid m) (ParsedMessage.session_id m)
                (ParsedMessage.parent_uuid m) (ParsedMessage.type m)
                (ParsedMessage.model m) (ParsedMessage.content_text m)
                (ParsedMessage.content_json m) (ParsedMessage.thinking m)
                (ParsedMessage.timestamp m)
                (ParsedMessage.input_tokens m) (ParsedMessage.output_tokens m)
                (ParsedMessage.cache_read_tokens m)
                (ParsedMessage.cache_creation_tokens m).

(** The argument of the first [db.upsert_session], under
    [if (!seen_sessions.has(message.session_id))]. *)
Definition first_sight_arg (project_path : string) (m : ParsedMessage.t)
  : SessionArg.t :=
  SessionArg.mk (ParsedMessage.session_id m) project_path
                (ParsedMessage.git_branch m) (ParsedMessage.cwd m)
                (ParsedMessage.timestamp m) (ParsedMessage.summary m).

(** The argument of the second [db.upsert_session], for a summary. *)
Definition summary_arg (project_path : string) (m : ParsedMessage.t)
  : SessionArg.t :=
  SessionArg.mk (ParsedMessage.session_id m) project_path None None
                (ParsedMessage.timestamp m) (ParsedMessage.summary m).

(** [message.type === 'summary' && message.summary]: the empty string is
    falsy. *)
Definition is_summary (m : ParsedMessage.t) : bool :=
  bool_decide (ParsedMessage.type m = "summary")
  && match ParsedMessage.summary m with
     | Some x => negb (bool_decide (x = ""))
     | None => false
     end.

Definition tool_call_row (m : ParsedMessage.t) (c : ParsedToolCall.t)
  : ToolCallRow.t :=
  ToolCallRow.mk (ParsedToolCall.id c) (ParsedMessage.uuid m)
                 (ParsedMessage.session_id m) (ParsedToolCall.tool_name c)
                 (ParsedToolCall.tool_input c) (ParsedMessage.timestamp m).

Definition tool_result_row (m : ParsedMessage.t) (c : ParsedToolResult.t)
  : ToolResultRow.t :=
  ToolResultRow.mk (ParsedToolResult.tool_call_id c) (ParsedMessage.uuid m)
                   (ParsedMessage.session_id m) (ParsedToolResult.content c)
                   (ParsedToolResult.is_error c) (ParsedMessage.timestamp m).

(** [for (const tool_call of message.tool_calls) { ... }] *)
Fixpoint insert_tool_calls (m : ParsedMessage.t) (cs : list ParsedToolCall.t)
    (r : Run) : Outcome Run :=
  match cs with
  | [] => mret r
  | c :: cs =>
      r ← call (InsertToolCall (tool_call_row m c)) r;
      insert_tool_calls m cs (with_result incr_tool_calls_added r)
  end.

(** [for (const tool_result of message.tool_results) { ... }] *)
Fixpoint insert_tool_results (m : ParsedMessage.t) (cs : list ParsedToolResult.t)
    (r : Run) : Outcome Run :=
  match cs with
  | [] => mret r
  | c :: cs =>
      r ← call (InsertToolResult (tool_result_row m c)) r;
      insert_tool_results m cs (with_result incr_tool_results_added r)
  end.

(** The body of the [for await] loop, after [last_byte_offset = byte_offset]. *)
Definition apply_message (project_path : string) (m : ParsedMessage.t)
    (r : Run) : Outcome Run :=
  r ← (if bool_decide (ParsedMessage.session_id m ∈ seen_sessions r)
       then mret r
       else
         r ← call (UpsertSession (first_sight_arg project_path m)) r;
         mret (mkRun (db r) ({[ParsedMessage.session_id m]} ∪ seen_sessions r)
                     (incr_sessions_added (result r)) (journal r)));
  r ← (if is_summary m
       then call (UpsertSession (summary_arg project_path m)) r
       else mret r);
  r ← call (InsertMessage (message_arg m)) r;
  r ← insert_tool_calls m (ParsedMessage.tool_calls m) r;
  insert_tool_results m (ParsedMessage.tool_results m) r.

(** The locals of one file: [last_byte_offset] and [file_messages_added]. *)
Record FileLoop := mkFileLoop {
  run : Run;
  last_byte_offset : Z;
  file_messages_added : nat
}.

(** The [for await] loop over what the generator yields. *)
Fixpoint apply_yielded (project_path : string)
    (items : list (ParsedMessage.t * Z)) (l : FileLoop) : Outcome FileLoop :=
  match items with
  | [] => mret l
  | (message, byte_offset) :: items =>
      let last_byte_offset := byte_offset in
      r ← apply_message project_path message (run l);
      apply_yielded project_path items
        (mkFileLoop r last_byte_offset (S (file_messages_added l)))
  end.

(** [sync_state && sync_state.last_modified >= last_modified] *)
Definition unchanged (sync_state : option SyncStateRow.t) (last_modified : Z)
  : bool :=
  match sync_state with
  | Some x => bool_decide (last_modified ≤ SyncStateRow.last_modified x)
  | None => false
  end.

(** [sync_state?.last_byte_offset ?? 0] *)
Definition start_offset_of (sync_state : option SyncStateRow.t) : Z :=
  match sync_state with
  | Some x => SyncStateRow.last_byte_offset x
  | None => 0
  end.

(** The body of [for (const file_path of files)]. *)
Definition process_file (fs : Files) (file_path : string) (r : Run)
  : Outcome Run :=
  let last_modified := lastModified fs file_path in
  let sync_state := get_sync_state file_path (db r) in
  if unchanged sync_state last_modified then mret r
  else
    let start_offset := start_offset_of sync_state in
    let project_path := extract_project_path fs file_path in
    let p := parse_file fs file_path start_offset in
    l ← apply_yielded project_path (yielded p) (mkFileLoop r start_offset 0);
    if throws p then Thrown READ_FAILURE (db (run l))
    else
      let r := if bool_decide (0 < file_messages_added l)%nat
               then with_result (add_file_messages (file_messages_added l)) (run l)
               else run l in
      call (SetSyncState file_path last_modified (last_byte_offset l)) r.

Fixpoint process_files (fs : Files) (files : list string) (r : Run)
  : Outcome Run :=
  match files with
  | [] => mret r
  | file_path :: files =>
      r ← process_file fs file_path r;
      process_files fs files r
  end.

(** The auto-migration at the head of [sync]. *)
Definition needs_migration (d : Database) : bool :=
  let stats := get_stats d in
  bool_decide (0 < stats_messages stats)%nat
  && bool_decide (stats_tool_calls d = 0%nat).

Definition migrate (r : Run) : Outcome Run :=
  if needs_migration (db r) then call ResetSyncState r else mret r.

Definition new_run (d : Database) : Run :=
  mkRun d ∅ (mkSyncResult 0 0 0 0 0 0) [].

(** From [db.disable_foreign_keys()] to [db.enable_foreign_keys()]. *)
Definition transaction (fs : Files) (files : list string) (r : Run)
  : Outcome Run :=
  r ← call DisableForeignKeys r;
  r ← call Begin r;
  r ← process_files fs files r;
  r ← call Commit r;
  call EnableForeignKeys r.

(** [sync(db)], [files] being what the glob scan of the projects
    directory finds. *)
Definition sync (fs : Files) (files : list string) (d : Database)
  : Outcome Run :=
  r ← migrate (new_run d);
  transaction fs files (with_result (set_files_scanned (length files)) r).

(** ** Vocabulary of the statements of the theorems *)

(** The statements that apply a parsed record. *)
Definition applies_record (c : Statement) : bool :=
  match c with
  | UpsertSession _ | InsertMessage _ | InsertToolCall _ | InsertToolResult _ => true
  | _ => false
  end.

Definition sets_cursor (c : Statement) : bool :=
  match c with
  | SetSyncState _ _ _ => true
  | _ => false
  end.

(** The statements in the order of a journal, run one after the other. *)
Fixpoint run_statements (js : list Statement) (d : Database) : Outcome Database :=
  match js with
  | [] => mret d
  | c :: js => d ← exec c d; run_statements js d
  end.

(** [r'] is [r] after the statements [js], all of which returned. *)
Definition steps (r : Run) (js : list Statement) (r' : Run) : Prop :=
  run_statements js (db r) = Returned (db r') ∧ journal r' = journal r ++ js.

(** The statements of one parsed record, [seen] being [seen_sessions]
    when the record arrives. *)
Definition message_statements (project_path : string) (m : ParsedMessage.t)
    (seen : gset string) : list Statement :=
  (if bool_decide (ParsedMessage.session_id m ∈ seen) then []
   else [UpsertSession (first_sight_arg project_path m)])
  ++ (if is_summary m then [UpsertSession (summary_arg project_path m)] else [])
  ++ [InsertMessage (message_arg m)]
  ++ (InsertToolCall ∘ tool_call_row m <$> ParsedMessage.tool_calls m)
  ++ (InsertToolResult ∘ tool_result_row m <$> ParsedMessage.tool_results m).

Fixpoint yielded_statements (project_path : string)
    (items : list (ParsedMessage.t * Z)) (seen : gset string) : list Statement :=
  match items with
  | [] => []
  | (m, _) :: items =>
      message_statements project_path m seen
      ++ yielded_statements project_path items
           ({[ParsedMessage.session_id m]} ∪ seen)
  end.

(** The statements of a record that do not depend on [seen_sessions]. *)
Definition inserts_of (m : ParsedMessage.t) (js : list Statement) : Prop :=
  InsertMessage (message_arg m) ∈ js
  ∧ (∀ c, c ∈ ParsedMessage.tool_calls m →
          InsertToolCall (tool_call_row m c) ∈ js)
  ∧ (∀ c, c ∈ ParsedMessage.tool_results m →
          InsertToolResult (tool_result_row m c) ∈ js).

(** No row of a session, a message, a tool call or a tool result is
    deleted, and no row of the last three is changed. *)
Definition rows_kept (t t' : Tables) : Prop :=
  dom (sessions t) ⊆ dom (sessions t')
  ∧ messages t ⊆ messages t'
  ∧ tool_calls t ⊆ tool_calls t'
  ∧ tool_results t ⊆ tool_results t'.

(** Inside the transaction of a run. *)
Definition in_tx (d : Database) : Prop :=
  in_transaction d = true ∧ foreign_keys d = false.

(** [d'] is still inside the transaction [d] is in: nothing has become
    durable since. *)
Definition within (d d' : Database) : Prop :=
  in_tx d' ∧ committed d' = committed d.

(** Every stored cursor makes [sync] skip its file. *)
Definition cursors_current (fs : Files) (t : Tables) : Prop :=
  ∀ f row, sync_state t !! f = Some row →
           lastModified fs f ≤ SyncStateRow.last_modified row.

(** The statements [sync] makes between [begin] and [commit]. *)
Definition in_loop (c : Statement) : bool :=
  applies_record c || sets_cursor c.

(** The tables once the auto-migration at the head of [sync] is over:
    the cursors are gone when it resets, nothing else differs. *)
Definition after_migration (d : Database) : Tables :=
  mkTables (sessions (tables d)) (messages (tables d))
           (tool_calls (tables d)) (tool_results (tables d))
           (if needs_migration d then ∅ else sync_state (tables d)).

(** The identifier an insert is keyed by is stored. *)
Definition key_stored (c : Statement) (t : Tables) : Prop :=
  match c with
  | InsertMessage m => is_Some (messages t !! MessageArg.uuid m)
  | InsertToolCall c => is_Some (tool_calls t !! ToolCallRow.id c)
  | InsertToolResult r => is_Some (tool_results t !! ToolResultRow.tool_call_id r)
  | _ => True
  end.

(** The run once [db.disable_foreign_keys()] and [db.begin()] have
    returned, and once [db.commit()] and [db.enable_foreign_keys()] have. *)
Definition begun (r : Run) : Run :=
  mkRun (mkDatabase (tables (db r)) (committed (db r)) true false)
        (seen_sessions r) (result r)
        ((journal r ++ [DisableForeignKeys]) ++ [Begin]).

Definition finished (r : Run) : Run :=
  mkRun (mkDatabase (tables (db r)) (tables (db r)) false true)
        (seen_sessions r) (result r)
        ((journal r ++ [Commit]) ++ [EnableForeignKeys]).

Definition upserts (c : Statement) : bool :=
  match c with
  | UpsertSession _ => true
  | _ => false
  end.

(** The statements of a record after its [db.upsert_session] calls. *)
Definition inserts (m : ParsedMessage.t) : list Statement :=
  [InsertMessage (message_arg m)]
  ++ (InsertToolCall ∘ tool_call_row m <$> ParsedMessage.tool_calls m)
  ++ (InsertToolResult ∘ tool_result_row m <$> ParsedMessage.tool_results m).

(** Whether [sync] leaves the session of a record alone: the session has
    been seen in the run, and the record is not a summary. *)
Definition leaves_session (m : ParsedMessage.t) (seen : gset string) : bool :=
  bool_decide (ParsedMessage.session_id m ∈ seen) && negb (is_summary m).

(** A connection with no transaction open: all it holds is durable. *)
Definition idle (d : Database) : Prop :=
  in_transaction d = false ∧ committed d = tables d.

(** Every stored session has its [last_timestamp], as every row
    [upsert_session] writes has. *)
Definition well_stamped (t : Tables) : Prop :=
  map_Forall (λ _ row, is_Some (SessionRow.last_timestamp row)) (sessions t).

(** A record is stored: its message, its tool calls and tool results. *)
Definition stored (m : ParsedMessage.t) (t : Tables) : Prop :=
  is_Some (messages t !! ParsedMessage.uuid m)
  ∧ (∀ c, c ∈ ParsedMessage.tool_calls m →
          is_Some (tool_calls t !! ParsedToolCall.id c))
  ∧ (∀ c, c ∈ ParsedMessage.tool_results m →
          is_Some (tool_results t !! ParsedToolResult.tool_call_id c)).

(** Whether the identifier an insert is keyed by is already stored. *)
Definition duplicate (c : Statement) (d : Database) : bool :=
  match c with
  | InsertMessage m =>
      bool_decide (is_Some (messages (tables d) !! MessageArg.uuid m))
  | InsertToolCall c =>
      bool_decide (is_Some (tool_calls (tables d) !! ToolCallRow.id c))
  | InsertToolResult r =>
      bool_decide (is_Some (tool_results (tables d) !! ToolResultRow.tool_call_id r))
  | _ => false
  end.

(** ** Sample stores and files *)

Module Sample.

Definition session_1 : SessionArg.t :=
  SessionArg.mk "s1" "/test/project" (Some "main") (Some "/test") 1000
                (Some "first summary").

(** A later call for the same id, other columns, no summary. *)
Definition session_1_again : SessionArg.t :=
  SessionArg.mk "s1" "/other/project" None (Some "/elsewhere") 2500 None.

Definition one_session : Database :=
  upsert_session session_1 (open empty_tables).

Definition message_1 : MessageArg.t :=
  MessageArg.mk "m1" "s1" None "human" None (Some "Hello world") None None
                1000 None None None None.

(** The same uuid with other contents. *)
Definition message_1_again : MessageArg.t :=
  MessageArg.mk "m1" "s9" (Some "m0") "assistant" (Some "model")
                (Some "Overwritten") None (Some "thoughts")
                7777 (Some 5) (Some 6) (Some 7) (Some 8).

Definition one_message : Database :=
  match insert_message message_1 one_session with
  | Returned d => d
  | Thrown _ d => d
  end.

(** The store of a run that knew no tool calls: a session, a message,
    the cursor of the transcript. *)
Definition legacy : Database :=
  set_sync_state "a.jsonl" 5 100 one_message.

Definition parsed (uuid session_id type : string) (timestamp : Z)
    (tool_calls : list ParsedToolCall.t) : ParsedMessage.t :=
  ParsedMessage.mk uuid session_id None type None (Some "Hello world")
                   None None timestamp None None None None None None None
                   tool_calls [].

Definition first_message : ParsedMessage.t :=
  parsed "m1" "s1" "human" 1000 [].

Definition second_message : ParsedMessage.t :=
  parsed "m2" "s1" "assistant" 2000 [ParsedToolCall.mk "tc1" "Read" "{}"].

(** A transcript of two records of one session, the first ending at
    byte 100 and the second at byte 200. *)
Definition transcript : Files :=
  mkFiles (fun _ => 10)
          (fun _ start_offset =>
             mkParse (if bool_decide (start_offset = 0)
                      then [(first_message, 100); (second_message, 200)]
                      else if bool_decide (start_offset = 100)
                           then [(second_message, 200)]
                           else [])
                     false)
          (fun _ => "-test-project/a.jsonl"%string).

(** The same file when it cannot be read. *)
Definition unreadable : Files :=
  mkFiles (fun _ => 10) (fun _ _ => mkParse [] true)
          (fun _ => "-test-project/a.jsonl"%string).

Definition returned (o : Outcome Run) : Run :=
  match o with
  | Returned r => r
  | Thrown _ d => new_run d
  end.

(** A pass over the transcript on a new store. *)
Definition pass : Run :=
  returned (process_file transcript "a.jsonl" (new_run (open empty_tables))).

(** The run after the first record of the transcript, and after the
    second. *)
Definition after_first : Run :=
  returned (apply_message "test/project" first_message
              (new_run (open empty_tables))).

Definition after_second : Run :=
  returned (apply_message "test/project" second_message after_first).

(** The store of the tests of [get_messages_around]: five messages of
    session [session-ctx], one second apart, and a message of another
    session at the time of the third. *)
Definition inserted (m : MessageArg.t) (d : Database) : Database :=
  match insert_message m d with
  | Returned d' => d'
  | Thrown _ d' => d'
  end.

Definition ctx_msg (uuid session_id : string) (timestamp : Z) : MessageArg.t :=
  MessageArg.mk uuid session_id None "human" None (Some "Message") None None
                timestamp None None None None.

Definition context : Database :=
  inserted (ctx_msg "other-msg" "session-other" 3000)
    (upsert_session
       (SessionArg.mk "session-other" "/test/other" None None 5000 None)
       (inserted (ctx_msg "ctx-msg-4" "session-ctx" 5000)
          (inserted (ctx_msg "ctx-msg-3" "session-ctx" 4000)
             (inserted (ctx_msg "ctx-msg-2" "session-ctx" 3000)
                (inserted (ctx_msg "ctx-msg-1" "session-ctx" 2000)
                   (inserted (ctx_msg "ctx-msg-0" "session-ctx" 1000)
                      (upsert_session
                         (SessionArg.mk "session-ctx" "/test/project"
                                        None None 0 None)
                         (open empty_tables)))))))).

(** A second message of session [s1], with a counter of input tokens. *)
Definition message_2 : MessageArg.t :=
  MessageArg.mk "m2" "s1" None "assistant" None None None None
                1500 (Some 5) None None None.

End Sample.

(** ** Vocabulary of the further properties *)

(** The invariant of a session row: both timestamps are there, the first
    not after the last. *)
Definition in_order (row : SessionRow.t) : Prop :=
  match SessionRow.first_timestamp row, SessionRow.last_timestamp row with
  | Some a, Some b => a ≤ b
  | _, _ => False
  end.

#[global] Instance in_order_dec (row : SessionRow.t) : Decision (in_order row).
Proof.
  unfold in_order.
  destruct (SessionRow.first_timestamp row), (SessionRow.last_timestamp row);
    apply _.
Defined.

Definition sessions_in_order (t : Tables) : Prop :=
  map_Forall (λ _ row, in_order row) (sessions t).

(** [row'] is what a later state holds for the session of [row]: the
    columns no statement writes are those of [row], [last_timestamp] has
    not gone down, a summary has not gone. *)
Definition extends (row row' : SessionRow.t) : Prop :=
  SessionRow.id row' = SessionRow.id row
  ∧ SessionRow.project_path row' = SessionRow.project_path row
  ∧ SessionRow.git_branch row' = SessionRow.git_branch row
  ∧ SessionRow.cwd row' = SessionRow.cwd row
  ∧ SessionRow.first_timestamp row' = SessionRow.first_timestamp row
  ∧ (∀ t, SessionRow.last_timestamp row = Some t →
          ∃ t', SessionRow.last_timestamp row' = Some t' ∧ t ≤ t')
  ∧ (is_Some (SessionRow.summary row) → is_Some (SessionRow.summary row')).

(** Whether a call returned. *)
Definition returns {A : Type} (o : Outcome A) : bool :=
  match o with
  | Returned _ => true
  | Thrown _ _ => false
  end.

(** How many statements of a journal satisfy [P]. *)
Definition count_statements (P : Statement → bool) (js : list Statement) : nat :=
  length (filter (λ c, P c = true) js).

Definition inserts_message (c : Statement) : bool :=
  match c with InsertMessage _ => true | _ => false end.

Definition inserts_tool_call (c : Statement) : bool :=
  match c with InsertToolCall _ => true | _ => false end.

Definition inserts_tool_result (c : Statement) : bool :=
  match c with InsertToolResult _ => true | _ => false end.

(** The session ids of the messages a journal inserts. *)
Definition inserted_session (c : Statement) : option string :=
  match c with
  | InsertMessage m => Some (MessageArg.session_id m)
  | _ => None
  end.

Definition sessions_read (js : list Statement) : gset string :=
  list_to_set (omap inserted_session js).

(** What ties the counters of [result] to the journal while a file is
    read, [pending] being [file_messages_added]. *)
Definition counted (r : Run) (pending : nat) : Prop :=
  seen_sessions r = sessions_read (journal r)
  ∧ sessions_added (result r) = size (seen_sessions r)
  ∧ (messages_added (result r) + pending)%nat
    = count_statements inserts_message (journal r)
  ∧ tool_calls_added (result r)
    = count_statements inserts_tool_call (journal r)
  ∧ tool_results_added (result r)
    = count_statements inserts_tool_result (journal r)
  ∧ (files_processed (result r)
     ≤ count_statements sets_cursor (journal r))%nat.

(** [x] with [sa], [tc] and [tr] more sessions, tool calls and tool
    results added. *)
Definition tally (x : SyncResult) (sa tc tr : nat) : SyncResult :=
  mkSyncResult (files_scanned x) (files_processed x) (messages_added x)
               (sessions_added x + sa) (tool_calls_added x + tc)
               (tool_results_added x + tr).

(** A statement that no counter of [result] counts. *)
Definition uncounted (c : Statement) : bool :=
  negb (inserts_message c) && negb (inserts_tool_call c)
  && negb (inserts_tool_result c).

(** ** [sync_teams] ([sync-teams.ts]) *)

Module TeamMember.
(** An element of [members] of a [TeamConfig]. *)
Record t := mk {
  agentId : string;
  name : string;
  agentType : option string;
  model : option string;
  prompt : option string;
  color : option string;
  cwd : option string;
  joinedAt : option Z
}.
End TeamMember.

Module TeamConfig.
(** [interface TeamConfig]; [members] is [None] when the key is absent,
    which is when [if (config.members)] skips the loop. *)
Record t := mk {
  name : string;
  description : option string;
  createdAt : Z;
  leadAgentId : option string;
  leadSessionId : option string;
  members : option (list TeamMember.t)
}.
End TeamConfig.

Module TaskFile.
(** [interface TaskFile]. *)
Record t := mk {
  id : string;
  subject : string;
  description : option string;
  status : option string;
  owner : option string
}.
End TaskFile.

Module TeamArg.
(** The object [sync_teams] hands to [db.upsert_team]. *)
Record t := mk {
  id : string;
  name : string;
  description : option string;
  lead_session_id : option string;
  created_at : Z
}.
End TeamArg.

Module TeamMemberArg.
(** The object [sync_teams] hands to [db.upsert_team_member]. *)
Record t := mk {
  id : string;
  team_id : string;
  name : string;
  agent_type : option string;
  model : option string;
  prompt : option string;
  color : option string;
  cwd : option string;
  joined_at : Z
}.
End TeamMemberArg.

Module TeamTaskArg.
(** The object [sync_teams] hands to [db.upsert_team_task]. *)
Record t := mk {
  id : string;
  team_id : string;
  owner_name : option string;
  subject : string;
  description : option string;
  status : option string
}.
End TeamTaskArg.

Record TeamSyncResult := mkTeamSyncResult {
  teams_synced : nat;
  members_synced : nat;
  tasks_synced : nat
}.

(** An entry of [readdirSync(dir, { withFileTypes: true })]. *)
Record Dirent := mkDirent {
  dirent_name : string;
  isDirectory : bool
}.

(** What [sync_teams] sees of its environment: [Bun.env.HOME], [join] of
    [path], [existsSync], [readdirSync] ([None]: it throws), and
    [JSON.parse(readFileSync(path, 'utf-8'))] at the type the code gives
    the value ([None]: one of the two throws). *)
Record TeamFiles := mkTeamFiles {
  HOME : string;
  join : list string -> string;
  existsSync : string -> bool;
  readdirSync : string -> option (list Dirent);
  read_config : string -> option TeamConfig.t;
  read_task : string -> option TaskFile.t
}.

Definition TEAMS_DIRS (fs : TeamFiles) : list string :=
  [ join fs [HOME fs; ".claude"; "teams"];
    join fs [HOME fs; ".claude-sneakpeek"; "claudesp"; "config"; "teams"] ].

Definition TASKS_DIRS (fs : TeamFiles) : list string :=
  [ join fs [HOME fs; ".claude"; "tasks"];
    join fs [HOME fs; ".claude-sneakpeek"; "claudesp"; "config"; "tasks"] ].

(** The three methods of [Database] that [sync_teams] calls. [src/db.ts]
    has none of them: [sync_teams] is embedded over any store that has
    the three, each call of which returns the store it leaves or throws
    ([None]) and leaves the store as it was. *)
Class TeamStore (DB : Type) := {
  upsert_team : TeamArg.t -> DB -> option DB;
  upsert_team_member : TeamMemberArg.t -> DB -> option DB;
  upsert_team_task : TeamTaskArg.t -> DB -> option DB
}.

Inductive TeamCall :=
  | UpsertTeam (a : TeamArg.t)
  | UpsertTeamMember (a : TeamMemberArg.t)
  | UpsertTeamTask (a : TeamTaskArg.t).

Definition team_exec {DB : Type} `{!TeamStore DB} (c : TeamCall) (db : DB)
  : option DB :=
  match c with
  | UpsertTeam a => upsert_team a db
  | UpsertTeamMember a => upsert_team_member a db
  | UpsertTeamTask a => upsert_team_task a db
  end.

(** The variables of a run of [sync_teams]: the store, [result], and the
    calls that returned so far, oldest first. *)
Record TeamRun (DB : Type) := mkTeamRun {
  team_db : DB;
  team_result : TeamSyncResult;
  team_journal : list TeamCall
}.

Arguments mkTeamRun {DB} _ _ _.
Arguments team_db {DB} _.
Arguments team_result {DB} _.
Arguments team_journal {DB} _.

(** How the promise [sync_teams] returns settles, with the variables at
    that point. *)
Inductive Settled (DB : Type) :=
  | Fulfilled (r : TeamRun DB)
  | Rejected (r : TeamRun DB).

Arguments Fulfilled {DB} _.
Arguments Rejected {DB} _.

Definition run_of {DB : Type} (s : Settled DB) : TeamRun DB :=
  match s with
  | Fulfilled r => r
  | Rejected r => r
  end.

Definition new_team_run {DB : Type} (db : DB) : TeamRun DB :=
  mkTeamRun db (mkTeamSyncResult 0 0 0) [].

(** A call on [db]: [None] when it throws. *)
Definition team_call {DB : Type} `{!TeamStore DB} (c : TeamCall) (r : TeamRun DB)
  : option (TeamRun DB) :=
  match team_exec c (team_db r) with
  | Some db' => Some (mkTeamRun db' (team_result r) (team_journal r ++ [c]))
  | None => None
  end.

(** [result.teams_synced++], [result.members_synced++],
    [result.tasks_synced++] *)
Definition incr_teams_synced {DB : Type} (r : TeamRun DB) : TeamRun DB :=
  let x := team_result r in
  mkTeamRun (team_db r)
            (mkTeamSyncResult (S (teams_synced x)) (members_synced x)
                              (tasks_synced x))
            (team_journal r).

Definition incr_members_synced {DB : Type} (r : TeamRun DB) : TeamRun DB :=
  let x := team_result r in
  mkTeamRun (team_db r)
            (mkTeamSyncResult (teams_synced x) (S (members_synced x))
                              (tasks_synced x))
            (team_journal r).

Definition incr_tasks_synced {DB : Type} (r : TeamRun DB) : TeamRun DB :=
  let x := team_result r in
  mkTeamRun (team_db r)
            (mkTeamSyncResult (teams_synced x) (members_synced x)
                              (S (tasks_synced x)))
            (team_journal r).

(** The three object literals. *)
Definition team_arg (team_id : string) (config : TeamConfig.t) : TeamArg.t :=
  {| TeamArg.id := team_id;
     TeamArg.name := TeamConfig.name config;
     TeamArg.description := TeamConfig.description config;
     TeamArg.lead_session_id := TeamConfig.leadSessionId config;
     TeamArg.created_at := TeamConfig.createdAt config |}.

Definition member_arg (team_id : string) (config : TeamConfig.t)
    (member : TeamMember.t) : TeamMemberArg.t :=
  {| TeamMemberArg.id := TeamMember.agentId member;
     TeamMemberArg.team_id := team_id;
     TeamMemberArg.name := TeamMember.name member;
     TeamMemberArg.agent_type := TeamMember.agentType member;
     TeamMemberArg.model := TeamMember.model member;
     TeamMemberArg.prompt := TeamMember.prompt member;
     TeamMemberArg.color := TeamMember.color member;
     TeamMemberArg.cwd := TeamMember.cwd member;
     TeamMemberArg.joined_at :=
       default (TeamConfig.createdAt config) (TeamMember.joinedAt member) |}.

Definition task_arg (team_dir : string) (task : TaskFile.t) : TeamTaskArg.t :=
  {| TeamTaskArg.id := team_dir ++ ":" ++ TaskFile.id task;
     TeamTaskArg.team_id := team_dir;
     TeamTaskArg.owner_name := TaskFile.owner task;
     TeamTaskArg.subject := TaskFile.subject task;
     TeamTaskArg.description := TaskFile.description task;
     TeamTaskArg.status := TaskFile.status task |}.

(** [for (const member of config.members)], inside the [try] of its
    team: a call that throws ends the loop and the [try] block, with
    what was written and counted before. *)
Fixpoint sync_members {DB : Type} `{!TeamStore DB} (team_id : string)
    (config : TeamConfig.t) (members : list TeamMember.t) (r : TeamRun DB)
  : TeamRun DB :=
  match members with
  | [] => r
  | member :: rest =>
      match team_call (UpsertTeamMember (member_arg team_id config member)) r with
      | Some r1 => sync_members team_id config rest (incr_members_synced r1)
      | None => r
      end
  end.

(** The body of [for (const team_dir of team_dirs)]. The [catch] logs
    when [verbose] and goes on with the next directory. *)
Definition sync_team {DB : Type} `{!TeamStore DB} (fs : TeamFiles)
    (teams_dir team_dir : string) (r : TeamRun DB) : TeamRun DB :=
  let config_path := join fs [teams_dir; team_dir; "config.json"] in
  if negb (existsSync fs config_path) then r
  else
    match read_config fs config_path with
    | None => r
    | Some config =>
        let team_id := team_dir in
        match team_call (UpsertTeam (team_arg team_id config)) r with
        | None => r
        | Some r1 =>
            let r2 := incr_teams_synced r1 in
            match TeamConfig.members config with
            | Some members => sync_members team_id config members r2
            | None => r2
            end
        end
    end.

(** [.filter((d) => d.isDirectory()).map((d) => d.name)] *)
Definition directories (entries : list Dirent) : list string :=
  dirent_name <$> List.filter isDirectory entries.

(** The body of [for (const teams_dir of TEAMS_DIRS)]; [readdirSync] is
    outside every [try]. *)
Definition sync_teams_dir {DB : Type} `{!TeamStore DB} (fs : TeamFiles)
    (teams_dir : string) (r : TeamRun DB) : Settled DB :=
  if negb (existsSync fs teams_dir) then Fulfilled r
  else
    match readdirSync fs teams_dir with
    | None => Rejected r
    | Some entries =>
        Fulfilled (foldl (λ r team_dir, sync_team fs teams_dir team_dir r) r
                         (directories entries))
    end.

(** [s.endsWith(suffix)] *)
Definition ends_with (s suffix : string) : bool :=
  let n := String.length s in
  let k := String.length suffix in
  (k <=? n)%nat && String.eqb (substring (n - k) k s) suffix.

(** [(f) => f.endsWith('.json') && f !== '.lock'] *)
Definition is_task_file (f : string) : bool :=
  ends_with f ".json" && negb (String.eqb f ".lock").

(** The body of [for (const task_file of task_files)]. *)
Definition sync_task {DB : Type} `{!TeamStore DB} (fs : TeamFiles)
    (team_tasks_dir team_dir task_file : string) (r : TeamRun DB) : TeamRun DB :=
  let task_path := join fs [team_tasks_dir; task_file] in
  match read_task fs task_path with
  | None => r
  | Some task =>
      match team_call (UpsertTeamTask (task_arg team_dir task)) r with
      | None => r
      | Some r1 => incr_tasks_synced r1
      end
  end.

(** The body of [for (const team_dir of task_team_dirs)]. *)
Definition sync_team_tasks {DB : Type} `{!TeamStore DB} (fs : TeamFiles)
    (tasks_dir team_dir : string) (r : TeamRun DB) : Settled DB :=
  let team_tasks_dir := join fs [tasks_dir; team_dir] in
  match readdirSync fs team_tasks_dir with
  | None => Rejected r
  | Some entries =>
      let task_files := List.filter is_task_file (dirent_name <$> entries) in
      Fulfilled (foldl (λ r task_file,
                          sync_task fs team_tasks_dir team_dir task_file r)
                       r task_files)
  end.

(** A [for ... of] loop whose body may throw. *)
Fixpoint for_each {DB A : Type} (body : A -> TeamRun DB -> Settled DB)
    (xs : list A) (r : TeamRun DB) : Settled DB :=
  match xs with
  | [] => Fulfilled r
  | x :: rest =>
      match body x r with
      | Fulfilled r' => for_each body rest r'
      | Rejected r' => Rejected r'
      end
  end.

(** The body of [for (const tasks_dir of TASKS_DIRS)]. *)
Definition sync_tasks_dir {DB : Type} `{!TeamStore DB} (fs : TeamFiles)
    (tasks_dir : string) (r : TeamRun DB) : Settled DB :=
  if negb (existsSync fs tasks_dir) then Fulfilled r
  else
    match readdirSync fs tasks_dir with
    | None => Rejected r
    | Some entries =>
        for_each (sync_team_tasks fs tasks_dir) (directories entries) r
    end.

Definition sync_teams {DB : Type} `{!TeamStore DB} (fs : TeamFiles) (db : DB)
  : Settled DB :=
  match for_each (sync_teams_dir fs) (TEAMS_DIRS fs) (new_team_run db) with
  | Rejected r => Rejected r
  | Fulfilled r => for_each (sync_tasks_dir fs) (TASKS_DIRS fs) r
  end.

(** *** Vocabulary of the properties of [sync_teams] *)

Definition is_upsert_team (c : TeamCall) : bool :=
  match c with UpsertTeam _ => true | _ => false end.

Definition is_upsert_team_member (c : TeamCall) : bool :=
  match c with UpsertTeamMember _ => true | _ => false end.

Definition is_upsert_team_task (c : TeamCall) : bool :=
  match c with UpsertTeamTask _ => true | _ => false end.

(** How many calls of a journal satisfy [P]. *)
Definition count_calls (P : TeamCall -> bool) (js : list TeamCall) : nat :=
  length (List.filter P js).

(** The calls of a journal made one after the other on a store; [None]
    as soon as one throws. *)
Definition replay {DB : Type} `{!TeamStore DB} (js : list TeamCall) (db : DB)
  : option DB :=
  foldl (λ o c, match o with Some d => team_exec c d | None => None end)
        (Some db) js.

(** No [':'] in [s]. *)
Definition no_colon (s : string) : Prop :=
  ":"%char ∉ list_ascii_of_string s.

(** What a step of [sync_teams] guarantees of the call it makes, [js]
    being the calls made before it. *)
Definition issued (js : list TeamCall) (c : TeamCall) : Prop :=
  match c with
  | UpsertTeam a => ∃ team_dir config, a = team_arg team_dir config
  | UpsertTeamMember a =>
      ∃ team_id config member,
        a = member_arg team_id config member
        ∧ UpsertTeam (team_arg team_id config) ∈ js
  | UpsertTeamTask a => ∃ team_dir task, a = task_arg team_dir task
  end.

(** [r] after the call [c] has returned [db'] and has been counted. *)
Definition counted_call_of {DB : Type} (c : TeamCall) (db' : DB) (r : TeamRun DB)
  : TeamRun DB :=
  let r1 := mkTeamRun db' (team_result r) (team_journal r ++ [c]) in
  match c with
  | UpsertTeam _ => incr_teams_synced r1
  | UpsertTeamMember _ => incr_members_synced r1
  | UpsertTeamTask _ => incr_tasks_synced r1
  end.

(** A store that keeps the ids of the teams it was given and refuses a
    member of a team it has not got. *)
Module TeamSample.

#[global] Instance store : TeamStore (list string) := {|
  upsert_team a db := Some (TeamArg.id a :: db);
  upsert_team_member a db :=
    if bool_decide (TeamMemberArg.team_id a ∈ db) then Some db else None;
  upsert_team_task a db := Some db
|}.

Definition alice : TeamMember.t :=
  TeamMember.mk "alice@crew" "alice" None None None None None None.

Definition bob : TeamMember.t :=
  TeamMember.mk "bob@crew" "bob" None None None None None (Some 7).

Definition crew : TeamConfig.t :=
  TeamConfig.mk "crew" None 5 None None (Some [alice; bob]).

Definition task_1 : TaskFile.t :=
  TaskFile.mk "1" "write" None None None.

Definition task_1_preview : TaskFile.t :=
  TaskFile.mk "1" "review" None (Some "pending") None.

Definition listing (path : string) : option (list Dirent) :=
  if String.eqb path "/h/.claude/teams" then
    Some [mkDirent "crew" true; mkDirent "notes.txt" false]
  else if String.eqb path "/h/.claude/tasks" then
    Some [mkDirent "crew" true; mkDirent "solo" true]
  else if String.eqb path "/h/.claude/tasks/crew" then
    Some [mkDirent "1.json" false; mkDirent ".lock" false]
  else if String.eqb path "/h/.claude/tasks/solo" then
    Some [mkDirent "1.json" false]
  else if String.eqb path "/h/.claude-sneakpeek/claudesp/config/tasks" then
    Some [mkDirent "crew" true]
  else if String.eqb path "/h/.claude-sneakpeek/claudesp/config/tasks/crew" then
    Some [mkDirent "1.json" false]
  else Some [].

Definition files : TeamFiles :=
  {| HOME := "/h";
     join := λ parts, foldr (λ p acc, if String.eqb acc "" then p
                                      else (p ++ "/" ++ acc)%string) "" parts;
     existsSync := λ path,
       bool_decide (path ∈ ["/h/.claude/teams"; "/h/.claude/tasks";
                            "/h/.claude-sneakpeek/claudesp/config/tasks";
                            "/h/.claude/teams/crew/config.json"]);
     readdirSync := listing;
     read_config := λ path,
       if String.eqb path "/h/.claude/teams/crew/config.json" then Some crew
       else None;
     read_task := λ path,
       if String.eqb path "/h/.claude/tasks/crew/1.json" then Some task_1
       else if String.eqb path "/h/.claude/tasks/solo/1.json" then Some task_1
       else if String.eqb path
                 "/h/.claude-sneakpeek/claudesp/config/tasks/crew/1.json"
       then Some task_1_preview
       else None |}.

Definition run : TeamRun (list string) :=
  Eval vm_compute in run_of (sync_teams files []).

End TeamSample.

(** ** Theorems *)

(** *** The definitions on the inputs of the tests *)

Example extract_project_path_encoded :
  extract_project_path Sample.transcript "a.jsonl" = "test/project".
Proof. reflexivity. Qed.

Example first_component_plain :
  first_component "plain-dir/session.jsonl" = "plain-dir".
Proof. reflexivity. Qed.

Example get_messages_around_middle :
  let a := get_messages_around "session-ctx" 3000 2 Sample.context in
  MessageRow.uuid <$> before a = ["ctx-msg-0"; "ctx-msg-1"]
  ∧ MessageRow.uuid <$> after a = ["ctx-msg-3"; "ctx-msg-4"].
Proof. vm_compute. done. Qed.

Example get_messages_around_late :
  let a := get_messages_around "session-ctx" 9999 5 Sample.context in
  length (before a) = 5%nat ∧ after a = [].
Proof. vm_compute. done. Qed.

Example sync_twice_adds_nothing :
  let r1 := Sample.returned
              (sync Sample.transcript ["a.jsonl"] (open empty_tables)) in
  let r2 := Sample.returned
              (sync Sample.transcript ["a.jsonl"]
                 (open (durable (db r1)))) in
  messages_added (result r1) = 2%nat
  ∧ messages_added (result r2) = 0%nat
  ∧ durable (db r2) = durable (db r1).
Proof. vm_compute. done. Qed.

(** *** The storage layer *)

Section UpsertSession.
Variables (s : SessionArg.t) (d : Database) (old : SessionRow.t).
Hypothesis stored : sessions (tables d) !! SessionArg.id s = Some old.

Lemma upsert_session_conflict :
  sessions (tables (upsert_session s d)) !! SessionArg.id s
  = Some (session_conflict_row old (session_insert_row s)).
Proof.
  unfold upsert_session, write, upsert_session_tables; simpl.
  rewrite stored. apply lookup_insert_eq.
Qed.
End UpsertSession.

Lemma upsert_session_other (s : SessionArg.t) (d : Database) (i : string) :
  i ≠ SessionArg.id s →
  sessions (tables (upsert_session s d)) !! i = sessions (tables d) !! i.
Proof.
  intros Hne. unfold upsert_session, write, upsert_session_tables; simpl.
  by rewrite lookup_insert_ne.
Qed.

(** C1: an upsert onto a stored session id leaves [last_timestamp] at the
    maximum of the stored and the incoming timestamp, and the summary is
    the incoming one when that is not null and the stored one otherwise. *)
Theorem upsert_session_merge (s : SessionArg.t) (d : Database)
    (old : SessionRow.t) (t0 : Z) :
  sessions (tables d) !! SessionArg.id s = Some old →
  SessionRow.last_timestamp old = Some t0 →
  ∃ new : SessionRow.t,
    sessions (tables (upsert_session s d)) !! SessionArg.id s = Some new
    ∧ SessionRow.last_timestamp new = Some (Z.max t0 (SessionArg.timestamp s))
    ∧ SessionRow.summary new
      = match SessionArg.summary s with
        | Some incoming => Some incoming
        | None => SessionRow.summary old
        end.
Proof.
  intros Hold Ht0. eexists. split.
  - by apply upsert_session_conflict.
  - simpl. rewrite Ht0. split; [done|]. by destruct (SessionArg.summary s).
Qed.

Lemma upsert_session_merge_witness :
  ∃ new : SessionRow.t,
    sessions (tables (upsert_session Sample.session_1_again Sample.one_session))
      !! "s1" = Some new
    ∧ SessionRow.last_timestamp new = Some 2500
    ∧ SessionRow.summary new = Some "first summary".
Proof.
  apply (upsert_session_merge Sample.session_1_again Sample.one_session
           (session_insert_row Sample.session_1) 1000); reflexivity.
Defined.

(** C10: an upsert onto a stored session id keeps [id], [project_path],
    [git_branch], [cwd] and [first_timestamp] of the stored row, whatever
    the call supplies. *)
Theorem upsert_session_frame (s : SessionArg.t) (d : Database)
    (old : SessionRow.t) :
  sessions (tables d) !! SessionArg.id s = Some old →
  ∃ new : SessionRow.t,
    sessions (tables (upsert_session s d)) !! SessionArg.id s = Some new
    ∧ SessionRow.id new = SessionRow.id old
    ∧ SessionRow.project_path new = SessionRow.project_path old
    ∧ SessionRow.git_branch new = SessionRow.git_branch old
    ∧ SessionRow.cwd new = SessionRow.cwd old
    ∧ SessionRow.first_timestamp new = SessionRow.first_timestamp old.
Proof.
  intros Hold. eexists. split; [by apply upsert_session_conflict|]. done.
Qed.

Lemma upsert_session_frame_witness :
  ∃ new : SessionRow.t,
    sessions (tables (upsert_session Sample.session_1_again Sample.one_session))
      !! "s1" = Some new
    ∧ SessionRow.id new = "s1"
    ∧ SessionRow.project_path new = "/test/project"
    ∧ SessionRow.git_branch new = Some "main"
    ∧ SessionRow.cwd new = Some "/test"
    ∧ SessionRow.first_timestamp new = Some 1000.
Proof.
  apply (upsert_session_frame Sample.session_1_again Sample.one_session
           (session_insert_row Sample.session_1)); reflexivity.
Defined.

(** Whatever upserts follow, the columns an upsert never writes stay what
    they are; [first_timestamp] stays the timestamp of the call that
    inserted the session. *)
Lemma upsert_session_frame_later (later : list SessionArg.t) (d : Database)
    (i : string) (old : SessionRow.t) :
  sessions (tables d) !! i = Some old →
  ∃ new : SessionRow.t,
    sessions (tables (foldl (λ d s, upsert_session s d) d later)) !! i
    = Some new
    ∧ SessionRow.project_path new = SessionRow.project_path old
    ∧ SessionRow.git_branch new = SessionRow.git_branch old
    ∧ SessionRow.cwd new = SessionRow.cwd old
    ∧ SessionRow.first_timestamp new = SessionRow.first_timestamp old.
Proof.
  revert d old. induction later as [|s later IH]; intros d old Hold; simpl.
  - by exists old.
  - destruct (decide (i = SessionArg.id s)) as [->|Hne].
    + destruct (IH (upsert_session s d)
                  (session_conflict_row old (session_insert_row s)))
        as (new & Hnew & Hrest).
      { by apply upsert_session_conflict. }
      by exists new.
    + apply IH. by rewrite upsert_session_other.
Qed.

Lemma first_timestamp_fixed (s : SessionArg.t) (later : list SessionArg.t)
    (d : Database) :
  sessions (tables d) !! SessionArg.id s = None →
  ∃ row : SessionRow.t,
    sessions (tables (foldl (λ d s, upsert_session s d) (upsert_session s d)
                        later)) !! SessionArg.id s = Some row
    ∧ SessionRow.first_timestamp row = Some (SessionArg.timestamp s).
Proof.
  intros Hnew.
  destruct (upsert_session_frame_later later (upsert_session s d)
              (SessionArg.id s) (session_insert_row s))
    as (row & Hrow & _ & _ & _ & Hfirst).
  - unfold upsert_session, write, upsert_session_tables. simpl.
    rewrite Hnew. apply lookup_insert_eq.
  - by exists row.
Qed.

(** C2: an insert of a message, a tool call or a tool result whose
    identifier is stored returns without an error and leaves the whole
    connection, so the stored row too, as it was. *)
Theorem insert_duplicate_noop (c : Statement) (d : Database) :
  duplicate c d = true → exec c d = Returned d.
Proof.
  destruct c as [s|m|c|r| | | | | |]; simpl; try done;
    intros [x Hx]%bool_decide_eq_true.
  - unfold insert_message. by rewrite Hx.
  - unfold insert_tool_call. by rewrite Hx.
  - unfold insert_tool_result. by rewrite Hx.
Qed.

Lemma insert_duplicate_noop_witness :
  exec (InsertMessage Sample.message_1_again) Sample.one_message
  = Returned Sample.one_message.
Proof.
  apply (insert_duplicate_noop (InsertMessage Sample.message_1_again)
           Sample.one_message); reflexivity.
Defined.

(** *** What one statement does *)

Ltac unfold_exec :=
  unfold exec, upsert_session, insert_message, insert_tool_call,
    insert_tool_result, set_sync_state, reset_sync_state,
    disable_foreign_keys, enable_foreign_keys, set_foreign_keys, begin,
    commit, write, upsert_session_tables, insert_message_tables,
    set_sync_state_tables in *.

Ltac exec_cases c :=
  destruct c; unfold_exec; simpl in *; repeat case_match; simplify_eq; simpl in *.

#[local] Instance rows_kept_preorder : PreOrder rows_kept.
Proof.
  split.
  - intros t. unfold rows_kept. by split_and!.
  - intros t1 t2 t3 (?&?&?&?) (?&?&?&?).
    unfold rows_kept. split_and!; etrans; eauto.
Qed.

Lemma exec_rows_kept (c : Statement) (d d' : Database) :
  exec c d = Returned d' → rows_kept (tables d) (tables d').
Proof.
  intros H. exec_cases c; try reflexivity; unfold rows_kept; simpl;
    split_and!; try done;
    try (by apply insert_subseteq);
    rewrite dom_insert; set_solver.
Qed.

Lemma run_statements_app (js1 js2 : list Statement) (d : Database) :
  run_statements (js1 ++ js2) d
  = (run_statements js1 d ≫= run_statements js2).
Proof.
  revert d. induction js1 as [|c js1 IH]; intros d; simpl; [done|].
  destruct (exec c d); simpl; [apply IH|done].
Qed.

Lemma run_statements_rows_kept (js : list Statement) (d d' : Database) :
  run_statements js d = Returned d' → rows_kept (tables d) (tables d').
Proof.
  revert d. induction js as [|c js IH]; intros d; simpl.
  - intros [= <-]. reflexivity.
  - destruct (exec c d) as [d1|] eqn:E; simpl; [|done].
    intros H. etrans; [by eapply exec_rows_kept|by apply IH].
Qed.

(** *** The journal of a run *)

Lemma bind_Returned {A B : Type} (m : Outcome A) (k : A → Outcome B) (b : B) :
  m ≫= k = Returned b → ∃ a, m = Returned a ∧ k a = Returned b.
Proof. destruct m as [a|]; simpl; [eauto|done]. Qed.

Tactic Notation "inv_bind" hyp(H) "as" ident(a) ident(Ha) :=
  apply bind_Returned in H as (a & Ha & H).

Lemma steps_refl (r : Run) : steps r [] r.
Proof. split; [done|by rewrite app_nil_r]. Qed.

Lemma steps_trans (r1 r2 r3 : Run) (js1 js2 : list Statement) :
  steps r1 js1 r2 → steps r2 js2 r3 → steps r1 (js1 ++ js2) r3.
Proof.
  intros [H1 J1] [H2 J2]. split.
  - by rewrite run_statements_app, H1.
  - by rewrite J2, J1, app_assoc.
Qed.

Lemma call_inv (c : Statement) (r r' : Run) :
  call c r = Returned r' →
  steps r [c] r' ∧ seen_sessions r' = seen_sessions r ∧ result r' = result r.
Proof.
  unfold call. intros H. inv_bind H as d' Hd'. injection H as <-.
  unfold steps; simpl. by rewrite Hd'.
Qed.

Lemma call_Returned (c : Statement) (r : Run) (d' : Database) :
  exec c (db r) = Returned d' →
  call c r = Returned (mkRun d' (seen_sessions r) (result r) (journal r ++ [c])).
Proof. unfold call. by intros ->. Qed.

Lemma insert_tool_calls_inv (m : ParsedMessage.t) (cs : list ParsedToolCall.t)
    (r r' : Run) :
  insert_tool_calls m cs r = Returned r' →
  steps r (InsertToolCall ∘ tool_call_row m <$> cs) r'
  ∧ seen_sessions r' = seen_sessions r.
Proof.
  revert r. induction cs as [|c cs IH]; intros r.
  - intros [= <-]. split; [apply steps_refl|done].
  - cbn [insert_tool_calls insert_tool_results fmap list_fmap].
    intros H. inv_bind H as r1 H1. apply call_inv in H1 as (Hs & Hseen & _).
    apply IH in H as [Hs' Hseen']. split.
    + by apply (steps_trans _ _ _ [_] _ Hs).
    + by rewrite Hseen'.
Qed.

Lemma insert_tool_results_inv (m : ParsedMessage.t)
    (cs : list ParsedToolResult.t) (r r' : Run) :
  insert_tool_results m cs r = Returned r' →
  steps r (InsertToolResult ∘ tool_result_row m <$> cs) r'
  ∧ seen_sessions r' = seen_sessions r.
Proof.
  revert r. induction cs as [|c cs IH]; intros r.
  - intros [= <-]. split; [apply steps_refl|done].
  - cbn [insert_tool_calls insert_tool_results fmap list_fmap].
    intros H. inv_bind H as r1 H1. apply call_inv in H1 as (Hs & Hseen & _).
    apply IH in H as [Hs' Hseen']. split.
    + by apply (steps_trans _ _ _ [_] _ Hs).
    + by rewrite Hseen'.
Qed.

Lemma apply_message_inv (project_path : string) (m : ParsedMessage.t)
    (r r' : Run) :
  apply_message project_path m r = Returned r' →
  steps r (message_statements project_path m (seen_sessions r)) r'
  ∧ seen_sessions r' = {[ParsedMessage.session_id m]} ∪ seen_sessions r.
Proof.
  unfold apply_message, message_statements. intros H.
  inv_bind H as r1 H1. inv_bind H as r2 H2. inv_bind H as r3 H3.
  inv_bind H as r4 H4.
  apply insert_tool_results_inv in H as [S5 E5].
  apply insert_tool_calls_inv in H4 as [S4 E4].
  apply call_inv in H3 as (S3 & E3 & _).
  assert (steps r1 (if is_summary m
                    then [UpsertSession (summary_arg project_path m)] else []) r2
          ∧ seen_sessions r2 = seen_sessions r1) as [S2 E2].
  { destruct (is_summary m).
    - apply call_inv in H2 as (S & E & _). by split.
    - injection H2 as Heq. subst r2. split; [apply steps_refl|done]. }
  assert (steps r (if bool_decide (ParsedMessage.session_id m ∈ seen_sessions r)
                   then [] else [UpsertSession (first_sight_arg project_path m)]) r1
          ∧ seen_sessions r1
            = {[ParsedMessage.session_id m]} ∪ seen_sessions r) as [S1 E1].
  { case_bool_decide as Hin.
    - injection H1 as Heq. subst r1. split; [apply steps_refl|].
      symmetry. apply subseteq_union_1_L. by apply singleton_subseteq_l.
    - inv_bind H1 as r0 H0. injection H1 as Heq. subst r1.
      apply call_inv in H0 as (S & E & _). split; [done|]. simpl. by rewrite E. }
  split.
  - eauto using steps_trans.
  - by rewrite E5, E4, E3, E2.
Qed.

Lemma apply_yielded_inv (project_path : string)
    (items : list (ParsedMessage.t * Z)) (l l' : FileLoop) :
  apply_yielded project_path items l = Returned l' →
  steps (run l)
        (yielded_statements project_path items (seen_sessions (run l)))
        (run l')
  ∧ last_byte_offset l' = default (last_byte_offset l) (last (snd <$> items))
  ∧ file_messages_added l' = (file_messages_added l + length items)%nat.
Proof.
  revert l. induction items as [|[m off] items IH]; intros l.
  - intros [= <-]. split; [apply steps_refl|]. split; [done|]. simpl. lia.
  - cbn [apply_yielded yielded_statements]. intros H. inv_bind H as r1 H1.
    apply apply_message_inv in H1 as [S1 E1].
    apply IH in H as (S2 & O2 & N2). simpl in S2, O2, N2.
    rewrite E1 in S2. split; [by eapply steps_trans|]. split.
    + rewrite O2. rewrite fmap_cons, last_cons.
      by destruct (last (snd <$> items)).
    + rewrite N2. simpl. lia.
Qed.

Section ProcessFile.
Variables (fs : Files) (file_path : string) (r : Run).

Let cursor := get_sync_state file_path (db r).
Let last_modified := lastModified fs file_path.
Let start_offset := start_offset_of cursor.
Let p := parse_file fs file_path start_offset.

(** The offset a pass over the file stores: that of the last pair
    yielded, the offset it resumed from when there is none. *)
Let new_offset := default start_offset (last (snd <$> yielded p)).

Lemma process_file_inv (r' : Run) :
  process_file fs file_path r = Returned r' →
  (unchanged cursor last_modified = true ∧ r' = r)
  ∨ (unchanged cursor last_modified = false
     ∧ throws p = false
     ∧ steps r
         (yielded_statements (extract_project_path fs file_path)
            (yielded p) (seen_sessions r)
          ++ [SetSyncState file_path last_modified new_offset])
         r').
Proof.
  unfold process_file.
  fold cursor last_modified start_offset p.
  destruct (unchanged cursor last_modified) eqn:U.
  - intros [= <-]. by left.
  - intros H. right. inv_bind H as l Hl.
    apply apply_yielded_inv in Hl as (S1 & O1 & N1). simpl in S1, O1, N1.
    destruct (throws p) eqn:T; [done|].
    apply call_inv in H as (S2 & _ & _).
    split; [done|]. split; [done|].
    eapply steps_trans; [exact S1|].
    rewrite O1 in S2. fold new_offset in S2.
    by case_bool_decide.
Qed.
End ProcessFile.

Lemma message_statements_applies (project_path : string) (m : ParsedMessage.t)
    (seen : gset string) :
  Forall (λ c, applies_record c = true) (message_statements project_path m seen).
Proof.
  unfold message_statements.
  repeat apply Forall_app_2.
  - case_bool_decide; by repeat constructor.
  - destruct (is_summary m); by repeat constructor.
  - by repeat constructor.
  - by apply Forall_fmap, Forall_true.
  - by apply Forall_fmap, Forall_true.
Qed.

Lemma yielded_statements_applies (project_path : string)
    (items : list (ParsedMessage.t * Z)) (seen : gset string) :
  Forall (λ c, applies_record c = true)
         (yielded_statements project_path items seen).
Proof.
  revert seen. induction items as [|[m off] items IH]; intros seen; simpl.
  - constructor.
  - apply Forall_app_2; [apply message_statements_applies|apply IH].
Qed.

Lemma inserts_of_app_l (m : ParsedMessage.t) (js1 js2 : list Statement) :
  inserts_of m js1 → inserts_of m (js1 ++ js2).
Proof.
  intros (H1 & H2 & H3). unfold inserts_of.
  split_and!; intros; apply elem_of_app; left; auto.
Qed.

Lemma inserts_of_app_r (m : ParsedMessage.t) (js1 js2 : list Statement) :
  inserts_of m js2 → inserts_of m (js1 ++ js2).
Proof.
  intros (H1 & H2 & H3). unfold inserts_of.
  split_and!; intros; apply elem_of_app; right; auto.
Qed.

Lemma message_statements_inserts (project_path : string) (m : ParsedMessage.t)
    (seen : gset string) :
  inserts_of m (message_statements project_path m seen).
Proof.
  unfold message_statements.
  apply inserts_of_app_r, inserts_of_app_r. split_and!.
  - apply elem_of_app. left. apply list_elem_of_singleton. done.
  - intros c Hc. apply elem_of_app. right. apply elem_of_app. left.
    apply (list_elem_of_fmap_2 (InsertToolCall ∘ tool_call_row m)) in Hc. done.
  - intros c Hc. apply elem_of_app. right. apply elem_of_app. right.
    apply (list_elem_of_fmap_2 (InsertToolResult ∘ tool_result_row m)) in Hc. done.
Qed.

Lemma yielded_statements_inserts (project_path : string)
    (items : list (ParsedMessage.t * Z)) (seen : gset string)
    (m : ParsedMessage.t) (off : Z) :
  (m, off) ∈ items →
  inserts_of m (yielded_statements project_path items seen).
Proof.
  revert seen. induction items as [|[m0 off0] items IH]; intros seen Hin.
  - by apply elem_of_nil in Hin.
  - simpl. apply elem_of_cons in Hin as [[= -> ->]|Hin].
    + apply inserts_of_app_l, message_statements_inserts.
    + apply inserts_of_app_r, IH, Hin.
Qed.

Lemma run_statements_snoc (js : list Statement) (c : Statement)
    (d d' : Database) :
  run_statements (js ++ [c]) d = Returned d' →
  ∃ d1, run_statements js d = Returned d1 ∧ exec c d1 = Returned d'.
Proof.
  rewrite run_statements_app. intros H. inv_bind H as d1 H1.
  exists d1. split; [done|]. simpl in H. by destruct (exec c d1).
Qed.

Lemma filter_sets_cursor_applies (js : list Statement) :
  Forall (λ c, applies_record c = true) js →
  filter (λ c, sets_cursor c = true) js = [].
Proof.
  induction 1 as [|c js Hc _ IH]; [done|].
  rewrite filter_cons, IH. destruct c; simpl in *; try done.
Qed.

(** C4: a pass over a file that is not skipped and goes through writes the
    file's cursor with one statement, the last of the pass, after the
    statements that insert the message, the tool calls and the tool
    results of every pair the parser yielded; the offset written is the
    one of the last pair yielded (the offset resumed from when there is
    none), hence not below the offset resumed from when the parser only
    moves forward. *)
Theorem cursor_commit (fs : Files) (file_path : string) (r r' : Run) :
  let cursor := get_sync_state file_path (db r) in
  let last_modified := lastModified fs file_path in
  let start_offset := start_offset_of cursor in
  let p := parse_file fs file_path start_offset in
  unchanged cursor last_modified = false →
  Forall (λ item, start_offset ≤ item.2) (yielded p) →
  process_file fs file_path r = Returned r' →
  ∃ (body : list Statement) (off : Z),
    let pass := body ++ [SetSyncState file_path last_modified off] in
    journal r' = journal r ++ pass
    ∧ run_statements pass (db r) = Returned (db r')
    ∧ length (filter (λ c, sets_cursor c = true) pass) = 1%nat
    ∧ Forall (λ c, applies_record c = true) body
    ∧ (∀ m o, (m, o) ∈ yielded p → inserts_of m body)
    ∧ off = default start_offset (last (snd <$> yielded p))
    ∧ start_offset ≤ off
    ∧ get_sync_state file_path (db r')
      = Some (SyncStateRow.mk last_modified off).
Proof.
  intros cursor last_modified start_offset p U Hfwd H.
  apply process_file_inv in H as [[U' _]|(_ & _ & [S J])].
  { fold cursor last_modified in U'. congruence. }
  fold cursor last_modified start_offset p in S, J.
  eexists _, _. cbn zeta. split; [exact J|]. split; [exact S|].
  pose proof (yielded_statements_applies (extract_project_path fs file_path)
                (yielded p) (seen_sessions r)) as Happ.
  split_and!.
  - rewrite filter_app, filter_sets_cursor_applies by done. done.
  - done.
  - intros m o Hin. by eapply yielded_statements_inserts.
  - done.
  - destruct (last (snd <$> yielded p)) as [off|] eqn:L; simpl; [|lia].
    apply last_Some_elem_of in L.
    apply list_elem_of_fmap in L as ([m o] & -> & Hin).
    by apply (proj1 (Forall_forall _ _) Hfwd) in Hin.
  - apply run_statements_snoc in S as (d1 & _ & E). simpl in E.
    injection E as <-. unfold get_sync_state. simpl. apply lookup_insert_eq.
Qed.

Lemma cursor_commit_witness :
  ∃ body : list Statement,
    journal Sample.pass = body ++ [SetSyncState "a.jsonl" 10 200]
    ∧ Forall (λ c, applies_record c = true) body
    ∧ inserts_of Sample.second_message body
    ∧ get_sync_state "a.jsonl" (db Sample.pass)
      = Some (SyncStateRow.mk 10 200).
Proof.
  destruct (cursor_commit Sample.transcript "a.jsonl"
              (new_run (open empty_tables)) Sample.pass)
    as (body & off & J & _ & _ & A & Ins & -> & _ & G).
  - reflexivity.
  - apply (bool_decide_unpack _). vm_compute. reflexivity.
  - reflexivity.
  - exists body. split_and!; [exact J|exact A| |exact G].
    apply (Ins Sample.second_message 200). right. left.
Defined.


(** The journal of the loop over the files: one pass per file, in the
    order of the files; the pass of a file is empty when the file is
    skipped, and otherwise ends with the only statement of it that
    writes a cursor, the one of the file. *)
Lemma process_files_passes (fs : Files) (files : list string) (r r' : Run) :
  process_files fs files r = Returned r' →
  ∃ passes : list (list Statement),
    journal r' = journal r ++ concat passes
    ∧ Forall2 (λ f pass,
                 pass = []
                 ∨ ∃ body off,
                     pass = body ++ [SetSyncState f (lastModified fs f) off]
                     ∧ Forall (λ c, applies_record c = true) body)
              files passes.
Proof.
  revert r. induction files as [|f files IH]; intros r.
  { intros [= <-]. exists []. split; [by rewrite app_nil_r|constructor]. }
  cbn [process_files]. intros H. inv_bind H as r1 H1.
  apply IH in H as (passes & J & F).
  apply process_file_inv in H1 as [[_ ->]|(_ & _ & [_ J1])].
  - exists ([] :: passes). split; [done|]. constructor; [by left|done].
  - eexists (_ :: passes). split.
    + rewrite J, J1. simpl. by rewrite <- app_assoc.
    + constructor; [|done]. right. eexists _, _. split; [done|].
      apply yielded_statements_applies.
Qed.

(** *** Inside the transaction *)

Lemma within_refl (d : Database) : in_tx d → within d d.
Proof. by split. Qed.

Lemma within_trans (d1 d2 d3 : Database) :
  within d1 d2 → within d2 d3 → within d1 d3.
Proof. intros [? E1] [? E2]. split; [done|congruence]. Qed.

Lemma exec_in_tx (c : Statement) (d : Database) :
  in_tx d → in_loop c = true →
  ∃ d', exec c d = Returned d' ∧ within d d'.
Proof.
  intros [T F] L. unfold within, in_tx.
  destruct c; try done; unfold_exec; simpl; rewrite ?F; simpl;
    repeat case_match; eexists; (split; [reflexivity|]); simpl;
    rewrite ?T; done.
Qed.

Lemma run_statements_in_tx (js : list Statement) (d : Database) :
  in_tx d → Forall (λ c, in_loop c = true) js →
  ∃ d', run_statements js d = Returned d' ∧ within d d'.
Proof.
  intros T H. revert d T. induction H as [|c js Hc _ IH]; intros d T; simpl.
  - exists d. split; [done|by apply within_refl].
  - destruct (exec_in_tx c d T Hc) as (d1 & -> & W1). simpl.
    destruct (IH d1 (proj1 W1)) as (d' & -> & W').
    exists d'. split; [done|]. by eapply within_trans.
Qed.

Lemma call_in_tx (c : Statement) (r : Run) :
  in_tx (db r) → in_loop c = true →
  ∃ r', call c r = Returned r' ∧ within (db r) (db r').
Proof.
  intros T L. destruct (exec_in_tx c (db r) T L) as (d' & E & W).
  unfold call. rewrite E. simpl. eexists. split; [reflexivity|done].
Qed.

Lemma insert_tool_calls_in_tx (m : ParsedMessage.t)
    (cs : list ParsedToolCall.t) (r : Run) :
  in_tx (db r) →
  ∃ r', insert_tool_calls m cs r = Returned r' ∧ within (db r) (db r').
Proof.
  revert r. induction cs as [|c cs IH]; intros r T.
  - exists r. split; [done|by apply within_refl].
  - cbn [insert_tool_calls].
    destruct (call_in_tx (InsertToolCall (tool_call_row m c)) r T eq_refl)
      as (r1 & -> & W1).
    destruct (IH (with_result incr_tool_calls_added r1) (proj1 W1))
      as (r' & E & W').
    exists r'. split; [exact E|]. by eapply within_trans.
Qed.

Lemma insert_tool_results_in_tx (m : ParsedMessage.t)
    (cs : list ParsedToolResult.t) (r : Run) :
  in_tx (db r) →
  ∃ r', insert_tool_results m cs r = Returned r' ∧ within (db r) (db r').
Proof.
  revert r. induction cs as [|c cs IH]; intros r T.
  - exists r. split; [done|by apply within_refl].
  - cbn [insert_tool_results].
    destruct (call_in_tx (InsertToolResult (tool_result_row m c)) r T eq_refl)
      as (r1 & -> & W1).
    destruct (IH (with_result incr_tool_results_added r1) (proj1 W1))
      as (r' & E & W').
    exists r'. split; [exact E|]. by eapply within_trans.
Qed.

Lemma apply_message_in_tx (project_path : string) (m : ParsedMessage.t)
    (r : Run) :
  in_tx (db r) →
  ∃ r', apply_message project_path m r = Returned r' ∧ within (db r) (db r').
Proof.
  intros T. unfold apply_message.
  assert (∃ r1,
    (if bool_decide (ParsedMessage.session_id m ∈ seen_sessions r)
     then mret r
     else r0 ← call (UpsertSession (first_sight_arg project_path m)) r;
          mret (mkRun (db r0)
                  ({[ParsedMessage.session_id m]} ∪ seen_sessions r0)
                  (incr_sessions_added (result r0)) (journal r0)))
    = Returned r1 ∧ within (db r) (db r1)) as (r1 & -> & W1).
  { case_bool_decide.
    - exists r. split; [done|by apply within_refl].
    - destruct (call_in_tx (UpsertSession (first_sight_arg project_path m))
                  r T eq_refl) as (r0 & -> & W0).
      eexists. split; [reflexivity|done]. }
  cbn [mbind Outcome_bind].
  assert (∃ r2,
    (if is_summary m
     then call (UpsertSession (summary_arg project_path m)) r1
     else mret r1) = Returned r2 ∧ within (db r1) (db r2)) as (r2 & -> & W2).
  { destruct (is_summary m).
    - apply call_in_tx; [apply W1|done].
    - exists r1. split; [done|apply within_refl, W1]. }
  cbn [mbind Outcome_bind].
  destruct (call_in_tx (InsertMessage (message_arg m)) r2 (proj1 W2) eq_refl)
    as (r3 & -> & W3).
  cbn [mbind Outcome_bind].
  destruct (insert_tool_calls_in_tx m (ParsedMessage.tool_calls m) r3 (proj1 W3))
    as (r4 & -> & W4).
  cbn [mbind Outcome_bind].
  destruct (insert_tool_results_in_tx m (ParsedMessage.tool_results m) r4
              (proj1 W4)) as (r5 & -> & W5).
  exists r5. split; [done|]. eauto using within_trans.
Qed.

Lemma apply_yielded_in_tx (project_path : string)
    (items : list (ParsedMessage.t * Z)) (l : FileLoop) :
  in_tx (db (run l)) →
  ∃ l', apply_yielded project_path items l = Returned l'
        ∧ within (db (run l)) (db (run l')).
Proof.
  revert l. induction items as [|[m off] items IH]; intros l T.
  - exists l. split; [done|by apply within_refl].
  - cbn [apply_yielded].
    destruct (apply_message_in_tx project_path m (run l) T) as (r1 & -> & W1).
    cbn [mbind Outcome_bind].
    destruct (IH (mkFileLoop r1 off (S (file_messages_added l))) (proj1 W1))
      as (l' & E & W').
    exists l'. split; [exact E|]. by eapply within_trans.
Qed.

Lemma process_file_in_tx (fs : Files) (file_path : string) (r : Run) :
  in_tx (db r) →
  (∃ r', process_file fs file_path r = Returned r' ∧ within (db r) (db r'))
  ∨ (∃ d', process_file fs file_path r = Thrown READ_FAILURE d'
           ∧ within (db r) d'
           ∧ throws (parse_file fs file_path
                       (start_offset_of (get_sync_state file_path (db r))))
             = true).
Proof.
  intros T. unfold process_file.
  destruct (unchanged _ _).
  { left. exists r. split; [done|by apply within_refl]. }
  set (start := start_offset_of _).
  destruct (apply_yielded_in_tx (extract_project_path fs file_path)
              (yielded (parse_file fs file_path start))
              (mkFileLoop r start 0) T) as (l & -> & W).
  cbn [mbind Outcome_bind]. simpl in W.
  destruct (throws (parse_file fs file_path start)) eqn:Th.
  { right. exists (db (run l)). done. }
  left.
  set (r1 := if bool_decide (0 < file_messages_added l)%nat
             then with_result (add_file_messages (file_messages_added l)) (run l)
             else run l).
  assert (db r1 = db (run l)) as E1 by (unfold r1; by case_bool_decide).
  destruct (call_in_tx
              (SetSyncState file_path (lastModified fs file_path)
                 (last_byte_offset l)) r1) as (r' & -> & W').
  { rewrite E1. apply W. }
  { done. }
  exists r'. split; [done|]. rewrite E1 in W'. by eapply within_trans.
Qed.

Lemma process_files_in_tx (fs : Files) (files : list string) (r : Run) :
  in_tx (db r) →
  (∃ r', process_files fs files r = Returned r' ∧ within (db r) (db r'))
  ∨ (∃ d' f off, process_files fs files r = Thrown READ_FAILURE d'
                 ∧ within (db r) d'
                 ∧ f ∈ files
                 ∧ throws (parse_file fs f off) = true).
Proof.
  revert r. induction files as [|f files IH]; intros r T.
  { left. exists r. split; [done|by apply within_refl]. }
  cbn [process_files].
  destruct (process_file_in_tx fs f r T)
    as [(r1 & -> & W1)|(d' & -> & W & Th)].
  - cbn [mbind Outcome_bind].
    destruct (IH r1 (proj1 W1))
      as [(r' & E & W')|(d' & f' & off & E & W' & Hin & Th)].
    + left. exists r'. split; [done|]. by eapply within_trans.
    + right. exists d', f', off. split; [done|].
      split; [by eapply within_trans|]. split; [by right|done].
  - right. exists d', f, (start_offset_of (get_sync_state f (db r))).
    split; [done|]. split; [done|]. split; [by left|done].
Qed.

Lemma process_files_inv (fs : Files) (files : list string) (r r' : Run) :
  process_files fs files r = Returned r' →
  ∃ js, steps r js r' ∧ Forall (λ c, in_loop c = true) js.
Proof.
  revert r. induction files as [|f files IH]; intros r.
  { intros [= <-]. exists []. split; [apply steps_refl|constructor]. }
  cbn [process_files]. intros H. inv_bind H as r1 H1.
  apply IH in H as (js2 & S2 & F2).
  apply process_file_inv in H1 as [[_ ->]|(_ & _ & S1)].
  - by exists js2.
  - eexists. split; [by eapply steps_trans|].
    apply Forall_app_2; [|done]. apply Forall_app_2.
    + eapply Forall_impl; [apply yielded_statements_applies|].
      intros c Hc. unfold in_loop. by rewrite Hc.
    + by repeat constructor.
Qed.

(** *** The run as a whole *)

Lemma migrate_spec (d : Database) :
  idle d →
  ∃ r0, migrate (new_run d) = Returned r0
        ∧ idle (db r0)
        ∧ tables (db r0) = after_migration d
        ∧ foreign_keys (db r0) = foreign_keys d
        ∧ journal r0 = (if needs_migration d then [ResetSyncState] else []).
Proof.
  intros [T C]. unfold migrate, after_migration. simpl.
  destruct (needs_migration d).
  - eexists. split; [reflexivity|]. unfold idle. simpl. rewrite T. done.
  - exists (new_run d). unfold idle. simpl.
    split_and!; try done. by destruct (tables d).
Qed.

Lemma transaction_spec (fs : Files) (files : list string) (r : Run) :
  idle (db r) →
  match transaction fs files r with
  | Returned r' =>
      ∃ body,
        journal r' = journal r ++ [DisableForeignKeys; Begin] ++ body
                               ++ [Commit; EnableForeignKeys]
        ∧ Forall (λ c, in_loop c = true) body
        ∧ run_statements body
            (mkDatabase (tables (db r)) (tables (db r)) true false)
          = Returned (mkDatabase (tables (db r')) (tables (db r)) true false)
        ∧ idle (db r')
        ∧ foreign_keys (db r') = true
  | Thrown e d' =>
      e = READ_FAILURE
      ∧ durable d' = tables (db r)
      ∧ ∃ f off, f ∈ files ∧ throws (parse_file fs f off) = true
  end.
Proof.
  intros [T C]. unfold transaction.
  rewrite (call_Returned DisableForeignKeys r _ eq_refl).
  cbn [mbind Outcome_bind].
  erewrite (call_Returned Begin); last first.
  { cbn [exec db]. unfold begin, disable_foreign_keys, set_foreign_keys.
    rewrite T. reflexivity. }
  cbn [mbind Outcome_bind db seen_sessions result journal tables committed
       foreign_keys].
  set (r2 := mkRun _ _ _ _).
  assert (in_tx (db r2)) as T2 by done.
  destruct (process_files_in_tx fs files r2 T2)
    as [(r3 & E & [T3 C3])|(d' & f & off & -> & [_ C'] & Hin & Th)].
  - rewrite E. cbn [mbind Outcome_bind].
    apply process_files_inv in E as (body & [S J] & F).
    erewrite (call_Returned Commit); last first.
    { cbn [exec db]. unfold commit. rewrite (proj1 T3). reflexivity. }
    cbn [mbind Outcome_bind].
    rewrite (call_Returned EnableForeignKeys _ _ eq_refl).
    exists body. simpl in J, C3, S. rewrite C in S.
    split_and!; try done.
    + simpl. rewrite J. by rewrite <- !app_assoc.
    + rewrite S. f_equal. destruct T3 as [T3 F3].
      destruct (db r3) as [t3 c3 i3 f3]. simpl in *. congruence.
  - cbn [mbind Outcome_bind]. split_and!; try done.
    + unfold durable. rewrite C'. simpl. done.
    + eauto.
Qed.

(** C5 (amended): [sync] runs the per-file loop in one transaction, with
    foreign keys switched off before it begins and on again after the
    commit; the cursor reset of the auto-migration comes before and is
    committed on its own. A run that fails fails on a file that cannot be
    read, and leaves in the file the sessions, messages, tool calls and
    tool results it held before the run, with the cursors it held before
    the run, or none when the auto-migration has reset them. *)
Theorem sync_transaction (fs : Files) (files : list string) (d : Database) :
  idle d →
  match sync fs files d with
  | Returned r =>
      ∃ body,
        journal r = (if needs_migration d then [ResetSyncState] else [])
                    ++ [DisableForeignKeys; Begin] ++ body
                    ++ [Commit; EnableForeignKeys]
        ∧ Forall (λ c, in_loop c = true) body
        ∧ durable (db r) = tables (db r)
        ∧ in_transaction (db r) = false
        ∧ foreign_keys (db r) = true
  | Thrown e d' =>
      e = READ_FAILURE
      ∧ (∃ f off, f ∈ files ∧ throws (parse_file fs f off) = true)
      ∧ sessions (durable d') = sessions (durable d)
      ∧ messages (durable d') = messages (durable d)
      ∧ tool_calls (durable d') = tool_calls (durable d)
      ∧ tool_results (durable d') = tool_results (durable d)
      ∧ sync_state (durable d')
        = (if needs_migration d then ∅ else sync_state (durable d))
  end.
Proof.
  intros I. destruct (migrate_spec d I) as (r0 & E0 & I0 & T0 & _ & J0).
  unfold sync. rewrite E0. cbn [mbind Outcome_bind].
  pose proof (transaction_spec fs files
                (with_result (set_files_scanned (length files)) r0) I0) as H.
  destruct (transaction fs files _) as [r|e d'].
  - destruct H as (body & J & F & _ & [T C] & K). exists body.
    simpl in J. rewrite J0 in J. by split_and!.
  - destruct H as (-> & D & Th). simpl in D. rewrite T0 in D.
    destruct I as [_ C]. unfold durable in *. rewrite D, C.
    by split_and!.
Qed.

Lemma sync_transaction_witness :
  ∃ d', sync Sample.unreadable ["a.jsonl"] Sample.legacy
        = Thrown READ_FAILURE d'
        ∧ sessions (durable d') = sessions (durable Sample.legacy)
        ∧ messages (durable d') = messages (durable Sample.legacy)
        ∧ sync_state (durable d') = ∅.
Proof.
  assert (idle Sample.legacy) as I by (split; reflexivity).
  pose proof (sync_transaction Sample.unreadable ["a.jsonl"] Sample.legacy I)
    as H.
  destruct (sync Sample.unreadable ["a.jsonl"] Sample.legacy) as [r|e d'] eqn:E.
  - vm_compute in E. discriminate E.
  - destruct H as (-> & _ & Hs & Hm & _ & _ & Hc).
    exists d'. split_and!; [reflexivity|exact Hs|exact Hm|exact Hc].
Defined.

(** C5, as the spec has it, fails: the store holds a message and no tool
    call, so the run resets the cursors before it opens its transaction;
    the transcript cannot be read and the run fails; the cursor of the
    transcript, durable before the run, is gone. *)
Lemma failed_run_is_not_undone :
  ∃ d', sync Sample.unreadable ["a.jsonl"] Sample.legacy
        = Thrown READ_FAILURE d'
        ∧ sync_state (durable Sample.legacy) !! "a.jsonl"
          = Some (SyncStateRow.mk 5 100)
        ∧ sync_state (durable d') !! "a.jsonl" = None
        ∧ durable d' ≠ durable Sample.legacy.
Proof.
  eexists. split; [vm_compute; reflexivity|].
  split; [reflexivity|]. split; [reflexivity|].
  intros H. apply (f_equal (λ t, sync_state t !! "a.jsonl")) in H.
  vm_compute in H. discriminate H.
Qed.


(** *** What the statements of a record leave in the tables *)

Lemma exec_key_stored (c : Statement) (d d' : Database) :
  exec c d = Returned d' → key_stored c (tables d').
Proof.
  intros H. destruct c; try done; unfold_exec; simpl in *;
    repeat case_match; simplify_eq; simpl; eauto;
    rewrite lookup_insert_eq; eauto.
Qed.

Lemma key_stored_kept (c : Statement) (t t' : Tables) :
  rows_kept t t' → key_stored c t → key_stored c t'.
Proof.
  intros (_ & Hm & Hc & Hr). destruct c; simpl; try done;
    intros [x Hx]; exists x; eapply lookup_weaken; eauto.
Qed.

Lemma run_statements_key_stored (js : list Statement) (c : Statement)
    (d d' : Database) :
  c ∈ js → run_statements js d = Returned d' → key_stored c (tables d').
Proof.
  intros (js1 & js2 & ->)%list_elem_of_split.
  rewrite run_statements_app. intros H. inv_bind H as d1 H1.
  simpl in H. inv_bind H as d2 H2.
  eapply key_stored_kept; [by eapply run_statements_rows_kept|].
  by eapply exec_key_stored.
Qed.

Lemma inserts_of_stored (m : ParsedMessage.t) (js : list Statement)
    (d d' : Database) :
  inserts_of m js → run_statements js d = Returned d' → stored m (tables d').
Proof.
  intros (Hm & Hc & Hr) H. unfold stored. split_and!.
  - apply (run_statements_key_stored _ _ _ _ Hm H).
  - intros c Hin. apply (run_statements_key_stored _ _ _ _ (Hc c Hin) H).
  - intros c Hin. apply (run_statements_key_stored _ _ _ _ (Hr c Hin) H).
Qed.

Lemma stored_kept (m : ParsedMessage.t) (t t' : Tables) :
  rows_kept t t' → stored m t → stored m t'.
Proof.
  intros (_ & Hm & Hc & Hr) (Sm & Sc & Sr). unfold stored. split_and!.
  - destruct Sm as [x Hx]. exists x. by eapply lookup_weaken.
  - intros c Hin. destruct (Sc c Hin) as [x Hx]. exists x.
    by eapply lookup_weaken.
  - intros c Hin. destruct (Sr c Hin) as [x Hx]. exists x.
    by eapply lookup_weaken.
Qed.

Lemma exec_applies_sync_state (c : Statement) (d d' : Database) :
  applies_record c = true → exec c d = Returned d' →
  sync_state (tables d') = sync_state (tables d).
Proof. intros A H. by exec_cases c. Qed.

Lemma run_statements_applies_sync_state (js : list Statement)
    (d d' : Database) :
  Forall (λ c, applies_record c = true) js →
  run_statements js d = Returned d' →
  sync_state (tables d') = sync_state (tables d).
Proof.
  intros F. revert d. induction F as [|c js Hc _ IH]; intros d; simpl.
  - by intros [= <-].
  - intros H. inv_bind H as d1 H1. rewrite (IH _ H).
    by eapply exec_applies_sync_state.
Qed.

Lemma exec_messages (c : Statement) (d d' : Database) :
  (∀ m, c = InsertMessage m →
        is_Some (messages (tables d) !! MessageArg.uuid m)) →
  exec c d = Returned d' →
  messages (tables d') = messages (tables d).
Proof.
  intros K H. exec_cases c; try done.
  all: destruct (K _ eq_refl) as [x Hx]; congruence.
Qed.

Lemma run_statements_messages (js : list Statement) (d d' : Database) :
  (∀ m, InsertMessage m ∈ js → is_Some (messages (tables d) !! MessageArg.uuid m)) →
  run_statements js d = Returned d' →
  messages (tables d') = messages (tables d).
Proof.
  revert d. induction js as [|c js IH]; intros d K; simpl.
  - by intros [= <-].
  - intros H. inv_bind H as d1 H1.
    assert (messages (tables d1) = messages (tables d)) as E1.
    { eapply exec_messages; [|done].
      intros m ->. apply K. by left. }
    rewrite <- E1. apply IH; [|done].
    intros m Hin. rewrite E1. apply K. by right.
Qed.

Lemma message_statements_messages (project_path : string)
    (m : ParsedMessage.t) (seen : gset string) (ma : MessageArg.t) :
  InsertMessage ma ∈ message_statements project_path m seen →
  ma = message_arg m.
Proof.
  unfold message_statements. rewrite !elem_of_app.
  intros [H|[H|[H|[H|H]]]].
  - case_bool_decide; [by apply elem_of_nil in H|].
    by apply list_elem_of_singleton in H.
  - destruct (is_summary m); [|by apply elem_of_nil in H].
    by apply list_elem_of_singleton in H.
  - apply list_elem_of_singleton in H. by injection H.
  - by apply list_elem_of_fmap in H as (? & ? & _).
  - by apply list_elem_of_fmap in H as (? & ? & _).
Qed.

Lemma yielded_statements_messages (project_path : string)
    (items : list (ParsedMessage.t * Z)) (seen : gset string)
    (ma : MessageArg.t) :
  InsertMessage ma ∈ yielded_statements project_path items seen →
  ∃ m off, (m, off) ∈ items ∧ ma = message_arg m.
Proof.
  revert seen. induction items as [|[m off] items IH]; intros seen; simpl.
  - by intros ?%elem_of_nil.
  - intros [H|H]%elem_of_app.
    + exists m, off. split; [by left|].
      by eapply message_statements_messages.
    + destruct (IH _ H) as (m' & off' & Hin & ->).
      exists m', off'. split; [by right|done].
Qed.

(** *** The re-scan after a reset *)

Lemma unchanged_current (fs : Files) (t : Tables) (f : string)
    (row : SyncStateRow.t) :
  cursors_current fs t → sync_state t !! f = Some row →
  unchanged (Some row) (lastModified fs f) = true.
Proof. intros Hc Hf. simpl. apply bool_decide_eq_true. eauto. Qed.

Lemma process_file_rescan (fs : Files) (f : string) (r : Run) :
  in_tx (db r) →
  cursors_current fs (tables (db r)) →
  throws (parse_file fs f 0) = false →
  ∃ r', process_file fs f r = Returned r'
    ∧ within (db r) (db r')
    ∧ cursors_current fs (tables (db r'))
    ∧ rows_kept (tables (db r)) (tables (db r'))
    ∧ (∀ g, g ≠ f → get_sync_state g (db r') = get_sync_state g (db r))
    ∧ (get_sync_state f (db r) = None →
       ∀ m off, (m, off) ∈ yielded (parse_file fs f 0) →
                stored m (tables (db r')))
    ∧ ((∀ m off, (m, off) ∈ yielded (parse_file fs f 0) →
          is_Some (messages (tables (db r)) !! ParsedMessage.uuid m)) →
       messages (tables (db r')) = messages (tables (db r))).
Proof.
  intros T Cur NoThrow.
  destruct (get_sync_state f (db r)) as [row|] eqn:G.
  { exists r. unfold process_file. rewrite G.
    rewrite (unchanged_current fs _ _ _ Cur G).
    by split_and!. }
  destruct (process_file_in_tx fs f r T) as [(r' & E & W)|(d' & _ & _ & Th)];
    last first.
  { rewrite G in Th. simpl in Th. congruence. }
  exists r'. split; [done|]. split; [done|].
  apply process_file_inv in E as [[U _]|(_ & _ & [S _])].
  { by rewrite G in U. }
  rewrite G in S. simpl in S.
  apply run_statements_snoc in S as (d1 & S1 & S2).
  simpl in S2. injection S2 as S2.
  pose proof (yielded_statements_applies (extract_project_path fs f)
                (yielded (parse_file fs f 0)) (seen_sessions r)) as A.
  pose proof (run_statements_applies_sync_state _ _ _ A S1) as E1.
  pose proof (run_statements_rows_kept _ _ _ S1) as K1.
  assert (rows_kept (tables d1) (tables (db r'))) as K2.
  { eapply (exec_rows_kept (SetSyncState f (lastModified fs f) _)).
    simpl. by rewrite S2. }
  split_and!.
  - intros g row. rewrite <- S2. simpl. rewrite E1.
    destruct (decide (f = g)) as [->|Hne].
    + rewrite lookup_insert_eq. intros [= <-]. simpl. lia.
    + rewrite lookup_insert_ne by done. apply Cur.
  - by etrans.
  - intros g Hne. unfold get_sync_state. rewrite <- S2. simpl.
    rewrite lookup_insert_ne by done. by rewrite E1.
  - intros _ m off Hin. eapply stored_kept; [exact K2|].
    eapply inserts_of_stored; [|exact S1].
    by eapply yielded_statements_inserts.
  - intros Hdup. rewrite <- S2. simpl.
    eapply run_statements_messages; [|exact S1].
    intros ma (m & off & Hin & ->)%yielded_statements_messages.
    simpl. by eapply Hdup.
Qed.

Lemma process_files_rescan (fs : Files) (files : list string) (r : Run) :
  in_tx (db r) →
  cursors_current fs (tables (db r)) →
  (∀ f, f ∈ files → throws (parse_file fs f 0) = false) →
  ∃ r', process_files fs files r = Returned r'
    ∧ within (db r) (db r')
    ∧ rows_kept (tables (db r)) (tables (db r'))
    ∧ (∀ f m off, f ∈ files → get_sync_state f (db r) = None →
                  (m, off) ∈ yielded (parse_file fs f 0) →
                  stored m (tables (db r')))
    ∧ ((∀ f m off, f ∈ files → (m, off) ∈ yielded (parse_file fs f 0) →
          is_Some (messages (tables (db r)) !! ParsedMessage.uuid m)) →
       messages (tables (db r')) = messages (tables (db r))).
Proof.
  revert r. induction files as [|f0 files IH]; intros r T Cur NoThrow.
  { exists r. split_and!; try done.
    intros f m off Hin. by apply elem_of_nil in Hin. }
  destruct (process_file_rescan fs f0 r T Cur)
    as (r1 & E1 & W1 & Cur1 & K1 & O1 & St1 & M1).
  { apply NoThrow. by left. }
  destruct (IH r1 (proj1 W1) Cur1) as (r' & E & W & K & St & M).
  { intros f Hin. apply NoThrow. by right. }
  exists r'. cbn [process_files]. rewrite E1. cbn [mbind Outcome_bind].
  split_and!.
  - done.
  - by eapply within_trans.
  - by etrans.
  - intros f m off Hin G Hy.
    destruct (decide (f = f0)) as [->|Hne].
    + eapply stored_kept; [exact K|]. by eapply St1.
    + apply elem_of_cons in Hin as [->|Hin]; [done|].
      eapply St; [done| |done]. by rewrite O1.
  - intros Hdup. rewrite M.
    + apply M1. intros m off Hy. eapply Hdup; [by left|done].
    + intros f m off Hin Hy. rewrite M1.
      * eapply Hdup; [by right|done].
      * intros m' off' Hy'. eapply Hdup; [by left|done].
Qed.

Lemma transaction_begun (fs : Files) (files : list string) (r : Run) :
  in_transaction (db r) = false →
  transaction fs files r
  = (r ← process_files fs files (begun r);
     r ← call Commit r; call EnableForeignKeys r).
Proof.
  intros T. unfold transaction.
  rewrite (call_Returned DisableForeignKeys r _ eq_refl).
  cbn [mbind Outcome_bind].
  erewrite (call_Returned Begin); [done|].
  cbn [exec db]. unfold begin, disable_foreign_keys, set_foreign_keys.
  rewrite T. reflexivity.
Qed.

Lemma transaction_finished (r : Run) :
  in_tx (db r) →
  (r ← call Commit r; call EnableForeignKeys r) = Returned (finished r).
Proof.
  intros [T F]. erewrite (call_Returned Commit); last first.
  { cbn [exec db]. unfold commit. rewrite T. reflexivity. }
  cbn [mbind Outcome_bind].
  rewrite (call_Returned EnableForeignKeys _ _ eq_refl).
  reflexivity.
Qed.

(** C3: when messages are stored and no tool call is, [sync] first resets
    the cursors, which deletes no session, message, tool call or tool
    result; the run then reads every file from offset 0, and when no file
    fails to be read it ends with every row of before still there, the
    messages unchanged, and the message, tool calls and tool results of
    every record of every file stored; when the files hold stored
    messages only, the table of messages is the one of before. *)
Theorem migration_repair (fs : Files) (files : list string) (d : Database) :
  idle d →
  stats_messages (get_stats d) ≠ 0%nat →
  stats_tool_calls d = 0%nat →
  (∀ f, f ∈ files → throws (parse_file fs f 0) = false) →
  ∃ r0 r body,
    migrate (new_run d) = Returned r0
    ∧ journal r0 = [ResetSyncState]
    ∧ durable (db r0)
      = mkTables (sessions (durable d)) (messages (durable d))
                 (tool_calls (durable d)) (tool_results (durable d)) ∅
    ∧ sync fs files d = Returned r
    ∧ journal r = [ResetSyncState; DisableForeignKeys; Begin] ++ body
                  ++ [Commit; EnableForeignKeys]
    ∧ Forall (λ c, in_loop c = true) body
    ∧ rows_kept (durable d) (durable (db r))
    ∧ (∀ f m off, f ∈ files → (m, off) ∈ yielded (parse_file fs f 0) →
                  stored m (durable (db r)))
    ∧ ((∀ f m off, f ∈ files → (m, off) ∈ yielded (parse_file fs f 0) →
          is_Some (messages (durable d) !! ParsedMessage.uuid m)) →
       messages (durable (db r)) = messages (durable d)).
Proof.
  intros I Hm Hc NoThrow.
  assert (needs_migration d = true) as N.
  { unfold needs_migration. rewrite Hc.
    rewrite bool_decide_eq_true_2 by lia. done. }
  destruct (migrate_spec d I) as (r0 & E0 & I0 & T0 & _ & J0).
  rewrite N in J0. unfold after_migration in T0. rewrite N in T0.
  destruct I as [Ti Ci]. destruct I0 as [Ti0 Ci0].
  set (r1 := with_result (set_files_scanned (length files)) r0).
  destruct (process_files_rescan fs files (begun r1))
    as (r3 & E3 & W3 & K3 & St3 & M3).
  { done. }
  { simpl. rewrite T0. intros f row. simpl. by rewrite lookup_empty. }
  { done. }
  pose proof (process_files_inv _ _ _ _ E3) as (body & [_ J3] & F3).
  exists r0, (finished r3), body.
  unfold durable. rewrite Ci, Ci0.
  split; [done|]. split; [done|]. split; [done|]. split.
  { unfold sync. rewrite E0. cbn [mbind Outcome_bind]. fold r1.
    rewrite (transaction_begun fs files r1 Ti0), E3.
    cbn [mbind Outcome_bind]. apply transaction_finished, W3. }
  simpl in K3, St3, M3. rewrite T0 in K3, St3, M3. simpl in K3, St3, M3.
  split_and!.
  - simpl. rewrite J3. simpl. rewrite J0. simpl.
    by rewrite <- !app_assoc.
  - done.
  - simpl. destruct K3 as (?&?&?&?). by split_and!.
  - intros f m off Hin Hy. simpl. eapply St3; [done| |done].
    apply lookup_empty.
  - intros Hdup. simpl. by apply M3.
Qed.

Lemma migration_repair_witness :
  ∃ r, sync Sample.transcript ["a.jsonl"] Sample.legacy = Returned r
       ∧ stored Sample.second_message (durable (db r))
       ∧ rows_kept (durable Sample.legacy) (durable (db r)).
Proof.
  destruct (migration_repair Sample.transcript ["a.jsonl"] Sample.legacy)
    as (r0 & r & body & _ & _ & _ & E & _ & _ & K & St & _).
  - split; reflexivity.
  - vm_compute. lia.
  - reflexivity.
  - intros f _. reflexivity.
  - exists r. split_and!; [exact E| |exact K].
    apply (St "a.jsonl" Sample.second_message 200); [left|right; left].
Defined.


(** *** The session of a record *)

Lemma exec_sessions (c : Statement) (d d' : Database) :
  upserts c = false → exec c d = Returned d' →
  sessions (tables d') = sessions (tables d).
Proof. intros U H. by exec_cases c. Qed.

Lemma run_statements_sessions (js : list Statement) (d d' : Database) :
  Forall (λ c, upserts c = false) js →
  run_statements js d = Returned d' →
  sessions (tables d') = sessions (tables d).
Proof.
  intros F. revert d. induction F as [|c js Hc _ IH]; intros d; simpl.
  - by intros [= <-].
  - intros H. inv_bind H as d1 H1. rewrite (IH _ H).
    by eapply exec_sessions.
Qed.

Lemma inserts_no_upsert (m : ParsedMessage.t) :
  Forall (λ c, upserts c = false) (inserts m).
Proof.
  unfold inserts. repeat apply Forall_app_2.
  - by repeat constructor.
  - by apply Forall_fmap, Forall_true.
  - by apply Forall_fmap, Forall_true.
Qed.

Lemma upsert_session_well_stamped (s : SessionArg.t) (d : Database) :
  well_stamped (tables d) → well_stamped (tables (upsert_session s d)).
Proof.
  intros W i row. unfold_exec. simpl.
  destruct (decide (SessionArg.id s = i)) as [<-|Hne].
  - rewrite lookup_insert_eq. intros [= <-].
    destruct (sessions (tables d) !! SessionArg.id s) as [old|] eqn:E; simpl.
    + destruct (W _ _ E) as [t ->]. by eexists.
    + by eexists.
  - rewrite lookup_insert_ne by done. apply W.
Qed.

Lemma exec_well_stamped (c : Statement) (d d' : Database) :
  exec c d = Returned d' →
  well_stamped (tables d) → well_stamped (tables d').
Proof.
  intros H W. destruct (upserts c) eqn:U.
  - destruct c; try done. simpl in H. injection H as <-.
    by apply upsert_session_well_stamped.
  - unfold well_stamped. by rewrite (exec_sessions _ _ _ U H).
Qed.

(** Every store that the statements of [Database] build from an empty
    file has the [last_timestamp] of each of its sessions. *)
Lemma run_statements_well_stamped (js : list Statement) (d d' : Database) :
  run_statements js d = Returned d' →
  well_stamped (tables d) → well_stamped (tables d').
Proof.
  revert d. induction js as [|c js IH]; intros d; simpl.
  - by intros [= <-].
  - intros H W. inv_bind H as d1 H1.
    eapply IH; [done|]. by eapply exec_well_stamped.
Qed.

Lemma empty_well_stamped : well_stamped empty_tables.
Proof. apply map_Forall_empty. Qed.

Lemma upsert_session_last (s : SessionArg.t) (d : Database) :
  well_stamped (tables d) →
  ∃ row t,
    sessions (tables (upsert_session s d)) !! SessionArg.id s = Some row
    ∧ SessionRow.last_timestamp row = Some t
    ∧ SessionArg.timestamp s ≤ t.
Proof.
  intros W. unfold_exec. simpl. rewrite lookup_insert_eq.
  destruct (sessions (tables d) !! SessionArg.id s) as [old|] eqn:E.
  - destruct (W _ _ E) as [t Ht]. eexists _, _. split; [done|].
    simpl. rewrite Ht. split; [done|]. lia.
  - eexists _, _. split; [done|]. simpl. split; [done|]. lia.
Qed.

Lemma message_statements_split (project_path : string) (m : ParsedMessage.t)
    (seen : gset string) :
  message_statements project_path m seen
  = (if bool_decide (ParsedMessage.session_id m ∈ seen) then []
     else [UpsertSession (first_sight_arg project_path m)])
    ++ (if is_summary m then [UpsertSession (summary_arg project_path m)]
        else [])
    ++ inserts m.
Proof. done. Qed.

(** C6 (amended): [sync] upserts the session of a record when the record
    is the first of the run for its session id, and when it is a summary
    with a summary text; the stored [last_timestamp] of the session is
    then at least the timestamp of the record. For any other record the
    table of sessions is left as it was. *)
Theorem session_updated_on_first_sight_or_summary (project_path : string)
    (m : ParsedMessage.t) (r r' : Run) :
  well_stamped (tables (db r)) →
  apply_message project_path m r = Returned r' →
  if leaves_session m (seen_sessions r)
  then sessions (tables (db r')) = sessions (tables (db r))
  else ∃ row t,
         sessions (tables (db r')) !! ParsedMessage.session_id m = Some row
         ∧ SessionRow.last_timestamp row = Some t
         ∧ ParsedMessage.timestamp m ≤ t.
Proof.
  intros W H. apply apply_message_inv in H as [[S _] _].
  rewrite message_statements_split in S. unfold leaves_session.
  pose proof (inserts_no_upsert m) as NU.
  case_bool_decide as Hseen; destruct (is_summary m) eqn:Hsum;
    cbn [app run_statements exec mbind Outcome_bind andb negb] in *;
    rewrite (run_statements_sessions _ _ _ NU S).
  - apply (upsert_session_last (summary_arg project_path m)), W.
  - done.
  - apply (upsert_session_last (summary_arg project_path m)).
    by apply upsert_session_well_stamped.
  - apply (upsert_session_last (first_sight_arg project_path m)), W.
Qed.

Lemma session_updated_on_first_sight_or_summary_witness :
  sessions (tables (db Sample.after_second))
  = sessions (tables (db Sample.after_first)).
Proof.
  apply (session_updated_on_first_sight_or_summary "test/project"
           Sample.second_message Sample.after_first Sample.after_second).
  - apply (bool_decide_unpack _). vm_compute. reflexivity.
  - reflexivity.
Defined.

(** C6, as the spec has it, fails: the transcript holds two records of
    session [s1], of timestamps 1000 and 2000; after the run the stored
    [last_timestamp] of [s1] is 1000, below the timestamp of the second
    record. *)
Lemma later_message_does_not_extend_session :
  ∃ r row,
    sync Sample.transcript ["a.jsonl"] (open empty_tables) = Returned r
    ∧ yielded (parse_file Sample.transcript "a.jsonl" 0)
      = [(Sample.first_message, 100); (Sample.second_message, 200)]
    ∧ ParsedMessage.session_id Sample.second_message = "s1"
    ∧ sessions (durable (db r)) !! "s1" = Some row
    ∧ SessionRow.last_timestamp row = Some 1000
    ∧ 1000 < ParsedMessage.timestamp Sample.second_message.
Proof.
  eexists _, _. split; [vm_compute; reflexivity|].
  split; [reflexivity|]. split; [reflexivity|].
  split; [vm_compute; reflexivity|]. split; [reflexivity|]. reflexivity.
Qed.


(** *** The context window *)

#[local] Instance chronological_total : Total chronological.
Proof. intros a b. unfold chronological. lia. Qed.

#[local] Instance chronological_trans : Transitive chronological.
Proof. intros a b c. unfold chronological. lia. Qed.

Lemma StronglySorted_sublist {A : Type} (R : relation A) (l1 l2 : list A) :
  l1 `sublist_of` l2 → StronglySorted R l2 → StronglySorted R l1.
Proof.
  induction 1 as [|x l1 l2 Hs IH|x l1 l2 Hs IH]; intros H.
  - constructor.
  - apply StronglySorted_cons in H as [HF HS]. apply StronglySorted_cons.
    split; [|by apply IH].
    apply Forall_forall. intros y Hy.
    apply (proj1 (Forall_forall _ _) HF). by eapply elem_of_sublist.
  - apply StronglySorted_cons in H as [_ HS]. by apply IH.
Qed.

Lemma session_messages_sorted (session_id : string) (d : Database) :
  StronglySorted chronological (session_messages session_id d).
Proof. apply StronglySorted_merge_sort; apply _. Qed.

Lemma elem_of_session_messages (session_id : string) (d : Database)
    (m : MessageRow.t) :
  m ∈ session_messages session_id d ↔ message_of session_id d m.
Proof.
  unfold session_messages, message_of.
  rewrite merge_sort_Permutation, list_elem_of_filter, list_elem_of_fmap.
  split.
  - intros (Hs & [uuid m'] & -> & Hin). split; [done|].
    exists uuid. by apply elem_of_map_to_list.
  - intros (Hs & uuid & Hin). split; [done|].
    exists (uuid, m). split; [done|]. by apply elem_of_map_to_list.
Qed.

Lemma session_messages_filter (P : MessageRow.t → Prop)
    `{∀ m, Decision (P m)} (session_id : string) (d : Database) :
  filter P (session_messages session_id d)
  ≡ₚ filter (λ m, MessageRow.session_id m = session_id ∧ P m)
            (snd <$> map_to_list (messages (tables d))).
Proof.
  unfold session_messages. rewrite merge_sort_Permutation.
  rewrite list_filter_filter. apply reflexive_eq, list_filter_iff.
  intros m. tauto.
Qed.

Lemma length_take_last {A : Type} (count : nat) (l : list A) :
  length (take_last count l) = min count (length l).
Proof. unfold take_last. rewrite length_drop. lia. Qed.

Lemma stored_side_nil (P : MessageRow.t → Prop) `{∀ m, Decision (P m)}
    (session_id : string) (d : Database) :
  (∀ uuid m, messages (tables d) !! uuid = Some m →
             MessageRow.session_id m ≠ session_id) →
  filter P (session_messages session_id d) = [].
Proof.
  intros Hno. apply elem_of_nil_inv. intros m Hin.
  apply list_elem_of_filter in Hin as [_ Hin].
  apply elem_of_session_messages in Hin as [Hs [uuid Hm]].
  by eapply Hno.
Qed.

(** C7: [get_messages_around] returns, on each side of the anchor, as many
    messages as the window size allows and the store has (so at most the
    window size, and fewer when fewer are stored); those before are
    stored messages of the session with a timestamp below the anchor,
    those after stored messages of the session with a timestamp above it,
    each list oldest first; for a session id no stored message has, both
    lists are empty. It returns for every argument. *)
Theorem get_messages_around_window (session_id : string) (timestamp : Z)
    (count : nat) (d : Database) :
  let a := get_messages_around session_id timestamp count d in
  length (before a)
  = min count (length (stored_before session_id timestamp d))
  ∧ length (after a)
    = min count (length (stored_after session_id timestamp d))
  ∧ Forall (λ m, MessageRow.timestamp m < timestamp
                 ∧ message_of session_id d m) (before a)
  ∧ Forall (λ m, timestamp < MessageRow.timestamp m
                 ∧ message_of session_id d m) (after a)
  ∧ StronglySorted chronological (before a)
  ∧ StronglySorted chronological (after a)
  ∧ ((∀ uuid m, messages (tables d) !! uuid = Some m →
                MessageRow.session_id m ≠ session_id) →
     a = mkAround [] []).
Proof.
  cbn zeta. unfold get_messages_around. cbn [before after].
  set (ms := session_messages session_id d).
  assert (∀ (P : MessageRow.t → Prop) `{∀ m, Decision (P m)},
            Forall (λ m, P m ∧ message_of session_id d m) (filter P ms)) as HF.
  { intros P ?. apply Forall_forall. intros m Hin.
    apply list_elem_of_filter in Hin as [HP Hin].
    split; [done|]. by apply elem_of_session_messages. }
  assert (∀ (P : MessageRow.t → Prop) `{∀ m, Decision (P m)},
            StronglySorted chronological (filter P ms)) as HS.
  { intros P ?. eapply StronglySorted_sublist; [apply sublist_filter|].
    apply session_messages_sorted. }
  split_and!.
  - rewrite length_take_last. f_equal. unfold stored_before.
    apply Permutation_length, session_messages_filter.
  - rewrite length_take. f_equal. unfold stored_after.
    apply Permutation_length, session_messages_filter.
  - unfold take_last. apply Forall_drop, HF.
  - apply Forall_take, HF.
  - eapply StronglySorted_sublist; [apply sublist_drop|apply HS].
  - eapply StronglySorted_sublist; [apply sublist_take|apply HS].
  - intros Hno. unfold ms.
    rewrite !(stored_side_nil _ _ _ Hno). unfold take_last.
    by rewrite take_nil, drop_nil.
Qed.

Lemma get_messages_around_window_witness :
  let a := get_messages_around "session-ctx" 3000 2 Sample.context in
  length (before a) = 2%nat ∧ length (after a) = 2%nat
  ∧ get_messages_around "nonexistent" 3000 5 Sample.context = mkAround [] [].
Proof.
  cbn zeta.
  destruct (get_messages_around_window "session-ctx" 3000 2 Sample.context)
    as (Hb & Ha & _).
  destruct (get_messages_around_window "nonexistent" 3000 5 Sample.context)
    as (_ & _ & _ & _ & _ & _ & Hno).
  split_and!.
  - rewrite Hb. vm_compute. reflexivity.
  - rewrite Ha. vm_compute. reflexivity.
  - apply Hno.
    change (map_Forall (λ _ m, MessageRow.session_id m ≠ "nonexistent")
              (messages (tables Sample.context))).
    apply (bool_decide_unpack _). vm_compute. reflexivity.
Defined.

(** * Further properties of the code *)

Lemma returns_returned (o : Outcome Run) :
  returns o = true → o = Returned (Sample.returned o).
Proof. by destruct o. Qed.

(** ** [upsert_session] ([db.ts]) *)

(** X1: [upsert_session] is idempotent: the same call made twice leaves
    the connection as the call made once does. *)
Theorem upsert_session_idempotent (s : SessionArg.t) (d : Database) :
  upsert_session s (upsert_session s d) = upsert_session s d.
Proof.
  unfold upsert_session, write, upsert_session_tables. simpl.
  rewrite lookup_insert_eq, insert_insert_eq.
  assert (session_conflict_row
            match sessions (tables d) !! SessionArg.id s with
            | Some old => session_conflict_row old (session_insert_row s)
            | None => session_insert_row s
            end (session_insert_row s)
          = match sessions (tables d) !! SessionArg.id s with
            | Some old => session_conflict_row old (session_insert_row s)
            | None => session_insert_row s
            end) as ->.
  { destruct (sessions (tables d) !! SessionArg.id s) as [old|].
    - unfold session_conflict_row. simpl. f_equal.
      + destruct (SessionRow.last_timestamp old); simpl; [|done].
        f_equal. lia.
      + by destruct (SessionArg.summary s).
    - unfold session_conflict_row, session_insert_row. simpl. f_equal.
      + f_equal. lia.
      + by destruct (SessionArg.summary s). }
  by destruct (in_transaction d).
Qed.

(** X2: [get_stats().sessions] after an [upsert_session] is one more than
    before when the id was not stored, and the same when it was. *)
Theorem upsert_session_count (s : SessionArg.t) (d : Database) :
  stats_sessions (get_stats (upsert_session s d))
  = match sessions (tables d) !! SessionArg.id s with
    | Some _ => stats_sessions (get_stats d)
    | None => S (stats_sessions (get_stats d))
    end.
Proof.
  unfold get_stats, upsert_session, write, upsert_session_tables. simpl.
  rewrite map_size_insert.
  by destruct (sessions (tables d) !! SessionArg.id s).
Qed.

(** ** What no statement undoes *)

Lemma extends_refl (row : SessionRow.t) : extends row row.
Proof. unfold extends. split_and!; try done. intros t Ht. exists t. by split. Qed.

Lemma extends_trans (r1 r2 r3 : SessionRow.t) :
  extends r1 r2 → extends r2 r3 → extends r1 r3.
Proof.
  intros (A1 & A2 & A3 & A4 & A5 & A6 & A7) (B1 & B2 & B3 & B4 & B5 & B6 & B7).
  unfold extends. split_and!; try congruence.
  - intros t Ht. destruct (A6 t Ht) as (t' & Ht' & Hle).
    destruct (B6 t' Ht') as (t'' & Ht'' & Hle'). exists t''. split; [done|lia].
  - auto.
Qed.

Lemma session_conflict_row_extends (old : SessionRow.t) (s : SessionArg.t) :
  extends old (session_conflict_row old (session_insert_row s)).
Proof.
  unfold extends. simpl. split_and!; try done.
  - intros t ->. simpl. eexists. split; [done|]. lia.
  - intros [x Hx]. rewrite Hx. by destruct (SessionArg.summary s).
Qed.

Lemma exec_extends (c : Statement) (d d' : Database) (i : string)
    (row : SessionRow.t) :
  exec c d = Returned d' →
  sessions (tables d) !! i = Some row →
  ∃ row', sessions (tables d') !! i = Some row' ∧ extends row row'.
Proof.
  intros H Hrow. destruct (upserts c) eqn:U.
  - destruct c as [s| | | | | | | | |]; try done. simpl in H.
    injection H as <-.
    destruct (decide (i = SessionArg.id s)) as [->|Hne].
    + rewrite (upsert_session_conflict s d row Hrow). eexists.
      split; [done|]. apply session_conflict_row_extends.
    + rewrite upsert_session_other by done. exists row.
      split; [done|apply extends_refl].
  - rewrite (exec_sessions _ _ _ U H). exists row.
    split; [done|apply extends_refl].
Qed.

Lemma run_statements_extends (js : list Statement) (d d' : Database)
    (i : string) (row : SessionRow.t) :
  run_statements js d = Returned d' →
  sessions (tables d) !! i = Some row →
  ∃ row', sessions (tables d') !! i = Some row' ∧ extends row row'.
Proof.
  revert d row. induction js as [|c js IH]; intros d row; simpl.
  - intros [= <-] Hrow. exists row. split; [done|apply extends_refl].
  - intros H Hrow. inv_bind H as d1 H1.
    destruct (exec_extends _ _ _ _ _ H1 Hrow) as (row1 & Hrow1 & E1).
    destruct (IH _ _ H Hrow1) as (row' & Hrow' & E').
    exists row'. split; [done|]. by eapply extends_trans.
Qed.

Lemma upsert_session_in_order (s : SessionArg.t) (d : Database) :
  sessions_in_order (tables d) →
  sessions_in_order (tables (upsert_session s d)).
Proof.
  intros W. unfold sessions_in_order, upsert_session, write,
    upsert_session_tables. simpl.
  apply map_Forall_insert_2; [|done].
  destruct (sessions (tables d) !! SessionArg.id s) as [old|] eqn:E.
  - pose proof (map_Forall_lookup_1 _ _ _ _ W E) as Hold.
    unfold in_order in *. simpl.
    destruct (SessionRow.first_timestamp old),
             (SessionRow.last_timestamp old); simpl; try done. lia.
  - unfold in_order. simpl. lia.
Qed.

Lemma exec_in_order (c : Statement) (d d' : Database) :
  exec c d = Returned d' →
  sessions_in_order (tables d) → sessions_in_order (tables d').
Proof.
  intros H W. destruct (upserts c) eqn:U.
  - destruct c; try done. simpl in H. injection H as <-.
    by apply upsert_session_in_order.
  - unfold sessions_in_order. by rewrite (exec_sessions _ _ _ U H).
Qed.

Lemma run_statements_in_order (js : list Statement) (d d' : Database) :
  run_statements js d = Returned d' →
  sessions_in_order (tables d) → sessions_in_order (tables d').
Proof.
  revert d. induction js as [|c js IH]; intros d; simpl.
  - by intros [= <-].
  - intros H W. inv_bind H as d1 H1.
    eapply IH; [done|]. by eapply exec_in_order.
Qed.

(** The journal of a run that returns tells what the run did: its
    statements, run in order on the connection [sync] got, give the
    connection [sync] leaves. *)
Lemma sync_steps (fs : Files) (files : list string) (d : Database) (r : Run) :
  sync fs files d = Returned r →
  run_statements (journal r) d = Returned (db r).
Proof.
  unfold sync, transaction. intros H.
  inv_bind H as r0 H0. inv_bind H as r1 H1. inv_bind H as r2 H2.
  inv_bind H as r3 H3. inv_bind H as r4 H4.
  assert (steps (new_run d) (journal r0) r0) as S0.
  { unfold migrate in H0. destruct (needs_migration (db (new_run d))).
    - apply call_inv in H0 as ([S J] & _ & _). simpl in J.
      split; [by rewrite J|done].
    - injection H0 as <-. apply steps_refl. }
  apply call_inv in H1 as (S1 & _ & _).
  apply call_inv in H2 as (S2 & _ & _).
  apply process_files_inv in H3 as (body & S3 & _).
  apply call_inv in H4 as (S4 & _ & _).
  apply call_inv in H as (S5 & _ & _).
  pose proof (steps_trans _ _ _ _ _ S0
                (steps_trans _ _ _ _ _ S1
                   (steps_trans _ _ _ _ _ S2
                      (steps_trans _ _ _ _ _ S3
                         (steps_trans _ _ _ _ _ S4 S5))))) as [S J].
  simpl in S, J. by rewrite J.
Qed.

(** X3: the invariant of the sessions, [first_timestamp] not after
    [last_timestamp] and both there, is kept by every sequence of
    statements of the [Database] that returns, and by every run of [sync]
    that returns. *)
Theorem timestamps_stay_in_order (d : Database) :
  sessions_in_order (tables d) →
  (∀ js d', run_statements js d = Returned d' →
            sessions_in_order (tables d'))
  ∧ (∀ fs files r, sync fs files d = Returned r →
                   sessions_in_order (tables (db r))).
Proof.
  intros W. split.
  - intros js d' H. by eapply run_statements_in_order.
  - intros fs files r H. apply sync_steps in H.
    by eapply run_statements_in_order.
Qed.

Lemma timestamps_stay_in_order_witness :
  sessions_in_order
    (tables (db (Sample.returned
                   (sync Sample.transcript ["a.jsonl"] (open empty_tables))))).
Proof.
  apply (proj2 (timestamps_stay_in_order (open empty_tables)
                  (map_Forall_empty _)) Sample.transcript ["a.jsonl"]).
  apply returns_returned. vm_compute. reflexivity.
Defined.

(** X4: a stored session is never deleted, and what later statements or a
    later run of [sync] leave of it keeps its [id], [project_path],
    [git_branch], [cwd] and [first_timestamp], a [last_timestamp] that has
    not gone down and a summary if it had one. *)
Theorem session_rows_only_extend (d : Database) (i : string)
    (row : SessionRow.t) :
  sessions (tables d) !! i = Some row →
  (∀ js d', run_statements js d = Returned d' →
            ∃ row', sessions (tables d') !! i = Some row' ∧ extends row row')
  ∧ (∀ fs files r, sync fs files d = Returned r →
                   ∃ row', sessions (tables (db r)) !! i = Some row'
                           ∧ extends row row').
Proof.
  intros Hrow. split.
  - intros js d' H. by eapply run_statements_extends.
  - intros fs files r H. apply sync_steps in H.
    by eapply run_statements_extends.
Qed.

Lemma session_rows_only_extend_witness :
  ∃ row',
    sessions (tables (upsert_session Sample.session_1_again Sample.one_session))
      !! "s1" = Some row'
    ∧ extends (session_insert_row Sample.session_1) row'.
Proof.
  apply (proj1 (session_rows_only_extend Sample.one_session "s1"
                  (session_insert_row Sample.session_1) eq_refl)
           [UpsertSession Sample.session_1_again]).
  reflexivity.
Defined.

(** X5: a run of [sync] that returns has deleted no session, no message,
    no tool call and no tool result, and has changed no stored message,
    tool call or tool result. *)
Theorem sync_keeps_rows (fs : Files) (files : list string) (d : Database)
    (r : Run) :
  sync fs files d = Returned r → rows_kept (tables d) (tables (db r)).
Proof.
  intros H. apply sync_steps in H. by eapply run_statements_rows_kept.
Qed.

Lemma sync_keeps_rows_witness :
  rows_kept (tables Sample.legacy)
    (tables (db (Sample.returned
                   (sync Sample.transcript ["a.jsonl"] Sample.legacy)))).
Proof.
  apply (sync_keeps_rows Sample.transcript ["a.jsonl"]).
  apply returns_returned. vm_compute. reflexivity.
Defined.

(** ** [insert_message], [get_stats], [get_sync_state] and
    [set_sync_state] ([db.ts]) *)

(** X6: when [insert_message] returns, the uuid is stored: with the row
    it had when it was stored already, and the count of messages of
    [get_stats] as before; with the row of the call otherwise, and the
    count one more. *)
Theorem insert_message_stored (m : MessageArg.t) (d d' : Database) :
  insert_message m d = Returned d' →
  match messages (tables d) !! MessageArg.uuid m with
  | Some old =>
      messages (tables d') !! MessageArg.uuid m = Some old
      ∧ stats_messages (get_stats d') = stats_messages (get_stats d)
  | None =>
      messages (tables d') !! MessageArg.uuid m = Some (message_insert_row m)
      ∧ stats_messages (get_stats d') = S (stats_messages (get_stats d))
  end.
Proof.
  unfold insert_message.
  destruct (messages (tables d) !! MessageArg.uuid m) as [old|] eqn:E.
  - intros [= <-]. by rewrite E.
  - destruct (_ && _); [done|]. intros [= <-]. simpl. split.
    + apply lookup_insert_eq.
    + by apply map_size_insert_None.
Qed.

Lemma insert_message_stored_witness :
  messages (tables Sample.one_message) !! "m1"
  = Some (message_insert_row Sample.message_1)
  ∧ stats_messages (get_stats Sample.one_message) = 1%nat.
Proof.
  apply (insert_message_stored Sample.message_1 Sample.one_session
           Sample.one_message).
  reflexivity.
Defined.

(** X7: a message whose session has just been upserted is accepted,
    whether foreign keys are enforced or not. *)
Theorem insert_message_after_upsert (s : SessionArg.t) (m : MessageArg.t)
    (d : Database) :
  MessageArg.session_id m = SessionArg.id s →
  ∃ d', insert_message m (upsert_session s d) = Returned d'
        ∧ is_Some (messages (tables d') !! MessageArg.uuid m).
Proof.
  intros Hs. unfold insert_message.
  destruct (messages (tables (upsert_session s d)) !! MessageArg.uuid m)
    as [old|] eqn:E.
  - eexists. split; [done|]. by rewrite E.
  - rewrite Hs.
    assert (sessions (tables (upsert_session s d)) !! SessionArg.id s ≠ None)
      as Hex.
    { unfold upsert_session, write, upsert_session_tables. simpl.
      by rewrite lookup_insert_eq. }
    rewrite bool_decide_eq_false_2 by done. rewrite andb_false_r.
    eexists. split; [done|]. simpl. rewrite lookup_insert_eq. by eexists.
Qed.

Lemma insert_message_after_upsert_witness :
  ∃ d', insert_message Sample.message_1
          (upsert_session Sample.session_1 (open empty_tables)) = Returned d'
        ∧ is_Some (messages (tables d') !! "m1").
Proof.
  apply (insert_message_after_upsert Sample.session_1 Sample.message_1).
  reflexivity.
Defined.

Lemma sql_sum_Permutation (l1 l2 : list (option Z)) :
  l1 ≡ₚ l2 → sql_sum l1 = sql_sum l2.
Proof.
  induction 1 as [|x l1 l2 _ IH|x y l|l1 l2 l3 _ IH1 _ IH2]; simpl.
  - done.
  - by rewrite IH.
  - destruct x, y, (sql_sum l); simpl; f_equal; lia.
  - congruence.
Qed.

Lemma column_insert {A : Type} (f : MessageRow.t → A) (uuid : string)
    (row : MessageRow.t) (ms : gmap string MessageRow.t) :
  ms !! uuid = None →
  column f (<[uuid := row]> ms) ≡ₚ f row :: column f ms.
Proof.
  intros Hnew. unfold column. by rewrite map_to_list_insert.
Qed.

(** X8: the sums of tokens of [get_stats] after a message with a new uuid
    has been inserted are the sums of before, NULL counting for 0, plus
    the counters of the call, a missing counter counting for 0. *)
Theorem insert_message_token_sums (m : MessageArg.t) (d d' : Database) :
  messages (tables d) !! MessageArg.uuid m = None →
  insert_message m d = Returned d' →
  let t := stats_tokens (get_stats d) in
  let t' := stats_tokens (get_stats d') in
  input t' = Some (default 0 (input t) + default 0 (MessageArg.input_tokens m))
  ∧ output t'
    = Some (default 0 (output t) + default 0 (MessageArg.output_tokens m))
  ∧ cache_read t'
    = Some (default 0 (cache_read t)
            + default 0 (MessageArg.cache_read_tokens m))
  ∧ cache_creation t'
    = Some (default 0 (cache_creation t)
            + default 0 (MessageArg.cache_creation_tokens m)).
Proof.
  intros Hnew. unfold insert_message. rewrite Hnew.
  destruct (_ && _); [done|]. intros [= <-]. cbn zeta. simpl.
  split_and!;
    (rewrite (sql_sum_Permutation _ _ (column_insert _ _ _ _ Hnew)); simpl;
     f_equal; lia).
Qed.

Lemma insert_message_token_sums_witness :
  input (stats_tokens (get_stats (Sample.inserted Sample.message_2
                                    Sample.one_message)))
  = Some 5.
Proof.
  destruct (insert_message_token_sums Sample.message_2
              Sample.one_message
              (Sample.inserted Sample.message_2 Sample.one_message))
    as (H & _); [reflexivity|reflexivity|].
  rewrite H. reflexivity.
Defined.

(** X9: [set_sync_state] then [get_sync_state] gives the pair written for
    the file and what was stored for any other file; a second
    [set_sync_state] for a file replaces the first; no other table is
    touched. *)
Theorem sync_state_round_trip (f g : string) (lm off lm0 off0 : Z)
    (d : Database) :
  get_sync_state g (set_sync_state f lm off d)
  = (if bool_decide (g = f) then Some (SyncStateRow.mk lm off)
     else get_sync_state g d)
  ∧ set_sync_state f lm off (set_sync_state f lm0 off0 d)
    = set_sync_state f lm off d
  ∧ sessions (tables (set_sync_state f lm off d)) = sessions (tables d)
  ∧ messages (tables (set_sync_state f lm off d)) = messages (tables d).
Proof.
  unfold get_sync_state, set_sync_state, write, set_sync_state_tables. simpl.
  split_and!; try done.
  - case_bool_decide as E.
    + subst g. apply lookup_insert_eq.
    + by apply lookup_insert_ne.
  - rewrite insert_insert_eq. by destruct (in_transaction d).
Qed.

(** ** The cursors after a run ([sync.ts]) *)

Lemma process_file_cursor (fs : Files) (f : string) (r r' : Run) :
  process_file fs f r = Returned r' →
  unchanged (get_sync_state f (db r')) (lastModified fs f) = true
  ∧ (∀ g, g ≠ f → get_sync_state g (db r') = get_sync_state g (db r)).
Proof.
  intros H. apply process_file_inv in H as [[U ->]|(_ & _ & [S _])].
  { by split. }
  apply run_statements_snoc in S as (d1 & S1 & S2).
  simpl in S2. injection S2 as S2.
  pose proof (run_statements_applies_sync_state _ _ _
                (yielded_statements_applies _ _ _) S1) as E1.
  unfold get_sync_state. rewrite <- S2. simpl. split.
  - rewrite lookup_insert_eq. simpl. apply bool_decide_eq_true. lia.
  - intros g Hne. rewrite lookup_insert_ne by done. by rewrite E1.
Qed.

Lemma process_file_keeps_current (fs : Files) (f g : string) (r r' : Run) :
  process_file fs f r = Returned r' →
  unchanged (get_sync_state g (db r)) (lastModified fs g) = true →
  unchanged (get_sync_state g (db r')) (lastModified fs g) = true.
Proof.
  intros H U. destruct (process_file_cursor _ _ _ _ H) as [Hf Ho].
  destruct (decide (g = f)) as [->|Hne]; [done|]. by rewrite Ho.
Qed.

Lemma process_files_keeps_current (fs : Files) (files : list string)
    (g : string) (r r' : Run) :
  process_files fs files r = Returned r' →
  unchanged (get_sync_state g (db r)) (lastModified fs g) = true →
  unchanged (get_sync_state g (db r')) (lastModified fs g) = true.
Proof.
  revert r. induction files as [|f files IH]; intros r.
  { by intros [= <-]. }
  cbn [process_files]. intros H U. inv_bind H as r1 H1.
  eapply IH; [done|]. by eapply process_file_keeps_current.
Qed.

Lemma process_files_cursors (fs : Files) (files : list string) (r r' : Run) :
  process_files fs files r = Returned r' →
  ∀ f, f ∈ files →
       unchanged (get_sync_state f (db r')) (lastModified fs f) = true.
Proof.
  revert r. induction files as [|f0 files IH]; intros r H f Hin.
  { by apply elem_of_nil in Hin. }
  cbn [process_files] in H. inv_bind H as r1 H1.
  apply elem_of_cons in Hin as [->|Hin].
  - eapply process_files_keeps_current; [done|].
    by apply (process_file_cursor _ _ _ _ H1).
  - by eapply IH.
Qed.

(** The parts of a run of [sync] that returns. *)
Lemma sync_inv (fs : Files) (files : list string) (d : Database) (r : Run) :
  sync fs files d = Returned r →
  ∃ r0 r2 r3,
    migrate (new_run d) = Returned r0
    ∧ tables (db r2) = tables (db r0)
    ∧ seen_sessions r2 = seen_sessions r0
    ∧ result r2 = set_files_scanned (length files) (result r0)
    ∧ journal r2 = journal r0 ++ [DisableForeignKeys; Begin]
    ∧ process_files fs files r2 = Returned r3
    ∧ tables (db r) = tables (db r3)
    ∧ seen_sessions r = seen_sessions r3
    ∧ result r = result r3
    ∧ journal r = journal r3 ++ [Commit; EnableForeignKeys]
    ∧ in_transaction (db r) = false.
Proof.
  unfold sync, transaction. intros H.
  inv_bind H as r0 H0. inv_bind H as r1 H1. inv_bind H as r2 H2.
  inv_bind H as r3 H3. inv_bind H as r4 H4.
  exists r0, r2, r3.
  unfold call in H1, H2, H4, H. simpl in H1. injection H1 as <-.
  simpl in H2. unfold begin in H2.
  destruct (in_transaction _) eqn:T2 in H2; [done|].
  simpl in H2. injection H2 as <-.
  simpl in H4. unfold commit in H4.
  destruct (in_transaction (db r3)) eqn:T3; [|done].
  simpl in H4. injection H4 as <-. simpl in H. injection H as <-.
  simpl. split_and!; try done.
  - unfold disable_foreign_keys, set_foreign_keys.
    by destruct (in_transaction (db r0)).
  - by rewrite <- app_assoc.
  - by rewrite <- app_assoc.
Qed.

(** X10: when a run of [sync] returns, every file it scanned has a cursor
    whose modification time is not below the one of the file, so that the
    next run skips the file unless the file changes or the cursors are
    reset. *)
Theorem sync_leaves_cursors_current (fs : Files) (files : list string)
    (d : Database) (r : Run) :
  sync fs files d = Returned r →
  ∀ f, f ∈ files →
       ∃ row, get_sync_state f (db r) = Some row
              ∧ lastModified fs f ≤ SyncStateRow.last_modified row.
Proof.
  intros H f Hin.
  apply sync_inv in H
    as (r0 & r2 & r3 & _ & _ & _ & _ & _ & H3 & T & _).
  pose proof (process_files_cursors _ _ _ _ H3 f Hin) as U.
  unfold get_sync_state in *. rewrite T.
  destruct (sync_state (tables (db r3)) !! f) as [row|]; [|done].
  exists row. split; [done|]. simpl in U. by apply bool_decide_eq_true in U.
Qed.

Lemma sync_leaves_cursors_current_witness :
  ∃ row,
    get_sync_state "a.jsonl"
      (db (Sample.returned
             (sync Sample.transcript ["a.jsonl"] (open empty_tables))))
    = Some row
    ∧ 10 ≤ SyncStateRow.last_modified row.
Proof.
  apply (sync_leaves_cursors_current Sample.transcript ["a.jsonl"]
           (open empty_tables)).
  - apply returns_returned. vm_compute. reflexivity.
  - left.
Defined.

Lemma process_files_skipped (fs : Files) (files : list string) (r : Run) :
  (∀ f, f ∈ files →
        unchanged (get_sync_state f (db r)) (lastModified fs f) = true) →
  process_files fs files r = Returned r.
Proof.
  induction files as [|f files IH]; intros U; [done|].
  cbn [process_files]. unfold process_file.
  rewrite (U f) by (by left). cbn [mret Outcome_ret mbind Outcome_bind].
  apply IH. intros g Hin. apply U. by right.
Qed.

Lemma sync_skips (fs : Files) (files : list string) (d : Database) :
  in_transaction d = false →
  needs_migration d = false →
  (∀ f, f ∈ files →
        unchanged (get_sync_state f d) (lastModified fs f) = true) →
  sync fs files d
  = Returned (mkRun (mkDatabase (tables d) (tables d) false true) ∅
                (mkSyncResult (length files) 0 0 0 0 0)
                [DisableForeignKeys; Begin; Commit; EnableForeignKeys]).
Proof.
  intros T N U. unfold sync, migrate. simpl. rewrite N.
  cbn [mret Outcome_ret mbind Outcome_bind].
  rewrite transaction_begun by done.
  rewrite process_files_skipped by done.
  cbn [mbind Outcome_bind]. by rewrite transaction_finished.
Qed.



(** X12: a second run of [sync] over the same files, right after a run
    that returned, changes no table and adds nothing, provided the store
    the first run left needs no migration (it holds a tool call, or no
    message). *)
Theorem sync_twice (fs : Files) (files : list string) (d : Database)
    (r1 : Run) :
  sync fs files d = Returned r1 →
  needs_migration (db r1) = false →
  ∃ r2, sync fs files (db r1) = Returned r2
        ∧ tables (db r2) = tables (db r1)
        ∧ messages_added (result r2) = 0%nat
        ∧ sessions_added (result r2) = 0%nat
        ∧ files_processed (result r2) = 0%nat.
Proof.
  intros H N.
  pose proof (sync_inv _ _ _ _ H)
    as (r0 & r2 & r3 & _ & _ & _ & _ & _ & H3 & T & _ & _ & _ & Tx).
  rewrite sync_skips; [by eexists|done|done|].
  intros f Hin. unfold get_sync_state. rewrite T.
  by apply (process_files_cursors _ _ _ _ H3).
Qed.

Lemma sync_twice_witness :
  ∃ r2,
    sync Sample.transcript ["a.jsonl"]
      (db (Sample.returned
             (sync Sample.transcript ["a.jsonl"] (open empty_tables))))
    = Returned r2
    ∧ messages_added (result r2) = 0%nat.
Proof.
  destruct (sync_twice Sample.transcript ["a.jsonl"] (open empty_tables)
              (Sample.returned
                 (sync Sample.transcript ["a.jsonl"] (open empty_tables))))
    as (r2 & E & _ & M & _).
  - apply returns_returned. vm_compute. reflexivity.
  - vm_compute. reflexivity.
  - exists r2. split; [exact E|exact M].
Defined.

(** ** The counters of [SyncResult] ([sync.ts]) *)

Lemma count_statements_app (P : Statement → bool) (js1 js2 : list Statement) :
  count_statements P (js1 ++ js2)
  = (count_statements P js1 + count_statements P js2)%nat.
Proof. unfold count_statements. by rewrite filter_app, List.length_app. Qed.

Lemma count_statements_fmap {A : Type} (P : Statement → bool)
    (g : A → Statement) (b : bool) (l : list A) :
  (∀ x, P (g x) = b) →
  count_statements P (g <$> l) = if b then length l else 0%nat.
Proof.
  intros Hg. unfold count_statements.
  induction l as [|x l IH]; [by destruct b|].
  rewrite fmap_cons, filter_cons. specialize (Hg x).
  case_decide as E; destruct b; try congruence; simpl; by rewrite IH.
Qed.

Lemma sessions_read_app (js1 js2 : list Statement) :
  sessions_read (js1 ++ js2) = sessions_read js1 ∪ sessions_read js2.
Proof. unfold sessions_read. by rewrite omap_app, list_to_set_app_L. Qed.

Lemma sessions_read_uncounted (js : list Statement) :
  Forall (λ c, inserts_message c = false) js → sessions_read js = ∅.
Proof.
  unfold sessions_read. induction 1 as [|c js Hc _ IH]; [done|].
  simpl. destruct c; try done.
Qed.

Lemma sessions_read_message_statements (project_path : string)
    (m : ParsedMessage.t) (seen : gset string) :
  sessions_read (message_statements project_path m seen)
  = {[ParsedMessage.session_id m]}.
Proof.
  unfold message_statements. rewrite !sessions_read_app.
  rewrite (sessions_read_uncounted (if bool_decide _ then _ else _))
    by (case_bool_decide; by repeat constructor).
  rewrite (sessions_read_uncounted (if is_summary m then _ else _))
    by (destruct (is_summary m); by repeat constructor).
  rewrite (sessions_read_uncounted (_ <$> ParsedMessage.tool_calls m))
    by (by apply Forall_fmap, Forall_true).
  rewrite (sessions_read_uncounted (_ <$> ParsedMessage.tool_results m))
    by (by apply Forall_fmap, Forall_true).
  unfold sessions_read. simpl.
  by rewrite !(left_id_L ∅ (∪)), !(right_id_L ∅ (∪)).
Qed.

Lemma count_message_statements (project_path : string) (m : ParsedMessage.t)
    (seen : gset string) :
  count_statements inserts_message (message_statements project_path m seen)
  = 1%nat
  ∧ count_statements inserts_tool_call
      (message_statements project_path m seen)
    = length (ParsedMessage.tool_calls m)
  ∧ count_statements inserts_tool_result
      (message_statements project_path m seen)
    = length (ParsedMessage.tool_results m)
  ∧ count_statements sets_cursor (message_statements project_path m seen)
    = 0%nat.
Proof.
  unfold message_statements. rewrite !count_statements_app.
  rewrite !(count_statements_fmap inserts_message _ false) by done.
  rewrite !(count_statements_fmap sets_cursor _ false) by done.
  rewrite (count_statements_fmap inserts_tool_call
             (InsertToolCall ∘ tool_call_row m) true) by done.
  rewrite (count_statements_fmap inserts_tool_call
             (InsertToolResult ∘ tool_result_row m) false) by done.
  rewrite (count_statements_fmap inserts_tool_result
             (InsertToolCall ∘ tool_call_row m) false) by done.
  rewrite (count_statements_fmap inserts_tool_result
             (InsertToolResult ∘ tool_result_row m) true) by done.
  case_bool_decide; destruct (is_summary m); cbn;
    repeat case_decide; try done; simpl; lia.
Qed.

Lemma tally_0 (x : SyncResult) : tally x 0 0 0 = x.
Proof. destruct x. unfold tally. simpl. f_equal; lia. Qed.

Lemma insert_tool_calls_result (m : ParsedMessage.t)
    (cs : list ParsedToolCall.t) (r r' : Run) :
  insert_tool_calls m cs r = Returned r' →
  result r' = tally (result r) 0 (length cs) 0.
Proof.
  revert r. induction cs as [|c cs IH]; intros r.
  - intros [= <-]. by rewrite tally_0.
  - cbn [insert_tool_calls]. intros H. inv_bind H as r1 H1.
    apply call_inv in H1 as (_ & _ & E1). apply IH in H. rewrite H.
    simpl. rewrite E1. unfold tally. simpl. f_equal; lia.
Qed.

Lemma insert_tool_results_result (m : ParsedMessage.t)
    (cs : list ParsedToolResult.t) (r r' : Run) :
  insert_tool_results m cs r = Returned r' →
  result r' = tally (result r) 0 0 (length cs).
Proof.
  revert r. induction cs as [|c cs IH]; intros r.
  - intros [= <-]. by rewrite tally_0.
  - cbn [insert_tool_results]. intros H. inv_bind H as r1 H1.
    apply call_inv in H1 as (_ & _ & E1). apply IH in H. rewrite H.
    simpl. rewrite E1. unfold tally. simpl. f_equal; lia.
Qed.

Lemma apply_message_result (project_path : string) (m : ParsedMessage.t)
    (r r' : Run) :
  apply_message project_path m r = Returned r' →
  result r'
  = tally (result r)
          (if bool_decide (ParsedMessage.session_id m ∈ seen_sessions r)
           then 0 else 1)
          (length (ParsedMessage.tool_calls m))
          (length (ParsedMessage.tool_results m)).
Proof.
  unfold apply_message. intros H.
  inv_bind H as r1 H1. inv_bind H as r2 H2. inv_bind H as r3 H3.
  inv_bind H as r4 H4.
  apply insert_tool_results_result in H. apply insert_tool_calls_result in H4.
  apply call_inv in H3 as (_ & _ & E3).
  assert (result r2 = result r1) as E2.
  { destruct (is_summary m).
    - by apply call_inv in H2 as (_ & _ & E).
    - by injection H2 as <-. }
  assert (result r1
          = tally (result r)
              (if bool_decide (ParsedMessage.session_id m ∈ seen_sessions r)
               then 0 else 1) 0 0) as E1.
  { case_bool_decide.
    - injection H1 as <-. by rewrite tally_0.
    - inv_bind H1 as r0 Hr0. injection H1 as <-.
      apply call_inv in Hr0 as (_ & _ & E0). simpl. rewrite E0.
      unfold tally, incr_sessions_added. f_equal; lia. }
  rewrite H, H4, E3, E2, E1. unfold tally. simpl. f_equal; lia.
Qed.

Lemma counted_apply_message (project_path : string) (m : ParsedMessage.t)
    (r r' : Run) (pending : nat) :
  apply_message project_path m r = Returned r' →
  counted r pending → counted r' (S pending).
Proof.
  intros H (Cs & Cn & Cm & Ct & Cr & Cf).
  pose proof (apply_message_result _ _ _ _ H) as R.
  apply apply_message_inv in H as [[_ J] E].
  destruct (count_message_statements project_path m (seen_sessions r))
    as (Km & Kt & Kr & Kc).
  unfold counted. rewrite J, E, R, !count_statements_app, sessions_read_app,
    sessions_read_message_statements, Km, Kt, Kr, Kc. simpl.
  split_and!; try lia.
  - rewrite <- Cs. apply (comm_L (∪)).
  - case_bool_decide as Hin.
    + rewrite (subseteq_union_1_L {[ParsedMessage.session_id m]})
        by (by apply singleton_subseteq_l). lia.
    + rewrite size_union by (by apply disjoint_singleton_l).
      rewrite size_singleton. lia.
Qed.

Lemma counted_apply_yielded (project_path : string)
    (items : list (ParsedMessage.t * Z)) (l l' : FileLoop) :
  apply_yielded project_path items l = Returned l' →
  counted (run l) (file_messages_added l) →
  counted (run l') (file_messages_added l')
  ∧ files_scanned (result (run l')) = files_scanned (result (run l))
  ∧ files_processed (result (run l')) = files_processed (result (run l)).
Proof.
  revert l. induction items as [|[m off] items IH]; intros l.
  - by intros [= <-].
  - cbn [apply_yielded]. intros H C. inv_bind H as r1 H1.
    pose proof (apply_message_result _ _ _ _ H1) as R.
    apply (counted_apply_message _ _ _ _ _ H1) in C.
    destruct (IH _ H C) as (C' & Fs & Fp). split; [done|].
    simpl in Fs, Fp. by rewrite Fs, Fp, R.
Qed.

Lemma count_statements_singleton (P : Statement → bool) (c : Statement) :
  count_statements P [c] = if P c then 1%nat else 0%nat.
Proof.
  unfold count_statements. rewrite filter_cons, filter_nil.
  case_decide as E; destruct (P c); by try congruence.
Qed.

Lemma counted_call (c : Statement) (r r' : Run) (pending : nat) :
  uncounted c = true →
  call c r = Returned r' →
  counted r pending → counted r' pending.
Proof.
  intros U H (Cs & Cn & Cm & Ct & Cr & Cf).
  apply call_inv in H as ([_ J] & E & R).
  unfold uncounted in U.
  apply andb_prop in U as [U Ur]. apply andb_prop in U as [Um Ut].
  apply negb_true_iff in Um, Ut, Ur.
  unfold counted.
  rewrite J, E, R, !count_statements_app, sessions_read_app,
    !count_statements_singleton, Um, Ut, Ur.
  rewrite (sessions_read_uncounted [c]) by (by repeat constructor).
  rewrite (right_id_L ∅ (∪)). split_and!; try done; lia.
Qed.

Lemma counted_process_file (fs : Files) (f : string) (r r' : Run) :
  process_file fs f r = Returned r' →
  counted r 0 →
  counted r' 0
  ∧ files_scanned (result r') = files_scanned (result r)
  ∧ (files_processed (result r') ≤ S (files_processed (result r)))%nat.
Proof.
  unfold process_file.
  destruct (unchanged _ _).
  { intros [= <-] C. split; [done|]. split; [done|lia]. }
  intros H C. inv_bind H as l Hl.
  destruct (counted_apply_yielded _ _ _ _ Hl C)
    as ((Cs & Cn & Cm & Ct & Cr & Cf) & Fs & Fp).
  simpl in Fs, Fp. destruct (throws _); [done|].
  apply call_inv in H as ([_ J] & E & R).
  unfold counted.
  rewrite J, E, R, !count_statements_app, sessions_read_app,
    !count_statements_singleton.
  rewrite (sessions_read_uncounted [_]) by (by repeat constructor).
  rewrite (right_id_L ∅ (∪)).
  case_bool_decide as Hn; simpl; (split; [split_and!; try done; lia|]);
    (split; [done|lia]).
Qed.

Lemma counted_process_files (fs : Files) (files : list string) (r r' : Run) :
  process_files fs files r = Returned r' →
  counted r 0 →
  counted r' 0
  ∧ files_scanned (result r') = files_scanned (result r)
  ∧ (files_processed (result r')
     ≤ files_processed (result r) + length files)%nat.
Proof.
  revert r. induction files as [|f files IH]; intros r.
  { intros [= <-] C. split; [done|]. split; [done|simpl; lia]. }
  cbn [process_files]. intros H C. inv_bind H as r1 H1.
  destruct (counted_process_file _ _ _ _ H1 C) as (C1 & Fs1 & Fp1).
  destruct (IH _ H C1) as (C' & Fs' & Fp').
  split; [done|]. split; [congruence|]. simpl. lia.
Qed.

Lemma count_statements_uncounted (js : list Statement) :
  Forall (λ c, uncounted c = true) js →
  count_statements inserts_message js = 0%nat
  ∧ count_statements inserts_tool_call js = 0%nat
  ∧ count_statements inserts_tool_result js = 0%nat
  ∧ sessions_read js = ∅.
Proof.
  induction 1 as [|c js Hc _ (Im & It & Ir & Is)]; [done|].
  change (c :: js) with ([c] ++ js).
  rewrite !count_statements_app, sessions_read_app,
    !count_statements_singleton, Im, It, Ir, Is.
  unfold uncounted in Hc.
  apply andb_prop in Hc as [Hc Ur]. apply andb_prop in Hc as [Um Ut].
  apply negb_true_iff in Um, Ut, Ur. rewrite Um, Ut, Ur.
  rewrite (sessions_read_uncounted [c]) by (by repeat constructor).
  by rewrite (right_id_L ∅ (∪)).
Qed.

Lemma counted_ext (r r' : Run) (js : list Statement) (pending : nat) :
  counted r pending →
  seen_sessions r' = seen_sessions r →
  sessions_added (result r') = sessions_added (result r) →
  messages_added (result r') = messages_added (result r) →
  tool_calls_added (result r') = tool_calls_added (result r) →
  tool_results_added (result r') = tool_results_added (result r) →
  files_processed (result r') = files_processed (result r) →
  journal r' = journal r ++ js →
  Forall (λ c, uncounted c = true) js →
  counted r' pending.
Proof.
  intros (Cs & Cn & Cm & Ct & Cr & Cf) E Rs Rm Rt Rr Rf J U.
  destruct (count_statements_uncounted js U) as (Im & It & Ir & Is).
  unfold counted.
  rewrite J, E, Rs, Rm, Rt, Rr, Rf, !count_statements_app, sessions_read_app,
    Im, It, Ir, Is, (right_id_L ∅ (∪)).
  split_and!; try done; lia.
Qed.

(** X13: the counters [sync] returns tell what the run did, not what the
    store gained: [files_scanned] is the number of files found;
    [messages_added], [tool_calls_added] and [tool_results_added] are the
    numbers of calls of [insert_message], [insert_tool_call] and
    [insert_tool_result] made, those the store ignored as duplicates
    included; [sessions_added] is the number of distinct session ids of
    the messages read; [files_processed] is at most [files_scanned]. *)
Theorem sync_result_counts (fs : Files) (files : list string) (d : Database)
    (r : Run) :
  sync fs files d = Returned r →
  files_scanned (result r) = length files
  ∧ (files_processed (result r) ≤ files_scanned (result r))%nat
  ∧ messages_added (result r)
    = count_statements inserts_message (journal r)
  ∧ tool_calls_added (result r)
    = count_statements inserts_tool_call (journal r)
  ∧ tool_results_added (result r)
    = count_statements inserts_tool_result (journal r)
  ∧ sessions_added (result r) = size (sessions_read (journal r)).
Proof.
  intros H.
  apply sync_inv in H
    as (r0 & r2 & r3 & H0 & _ & E2 & R2 & J2 & H3 & _ & E & R & J & _).
  assert (counted r0 0 ∧ files_processed (result r0) = 0%nat) as [C0 F0].
  { assert (counted (new_run d) 0) as Cn.
    { unfold counted, count_statements, sessions_read.
      cbn [new_run seen_sessions result journal sessions_added
           messages_added tool_calls_added tool_results_added
           files_processed omap list_omap filter list_filter length
           list_to_set foldr].
      rewrite size_empty. split_and!; try done; lia. }
    unfold migrate in H0. destruct (needs_migration _).
    - pose proof (call_inv _ _ _ H0) as (_ & _ & R0).
      split; [exact (counted_call ResetSyncState _ _ 0 eq_refl H0 Cn)|
              by rewrite R0].
    - by injection H0 as <-. }
  assert (counted r2 0) as C2.
  { eapply (counted_ext r0 r2); try done; try (by rewrite R2).
    by repeat constructor. }
  destruct (counted_process_files _ _ _ _ H3 C2) as (C3 & Fs3 & Fp3).
  assert (counted r 0) as (Cs & Cn & Cm & Ct & Cr & Cf).
  { eapply (counted_ext r3 r); try done; try (by rewrite R).
    by repeat constructor. }
  rewrite R, Fs3, R2 in *. simpl in *. rewrite F0 in Fp3.
  split_and!; try done; try lia.
  by rewrite Cn, Cs.
Qed.

Lemma sync_result_counts_witness :
  messages_added
    (result (Sample.returned
               (sync Sample.transcript ["a.jsonl"] Sample.legacy)))
  = 2%nat.
Proof.
  destruct (sync_result_counts Sample.transcript ["a.jsonl"] Sample.legacy
              (Sample.returned
                 (sync Sample.transcript ["a.jsonl"] Sample.legacy)))
    as (_ & _ & M & _).
  - apply returns_returned. vm_compute. reflexivity.
  - rewrite M. vm_compute. reflexivity.
Defined.

(** ** [extract_project_path] ([sync.ts]) *)

Lemma first_component_no_slash (rel : string) :
  "/"%char ∉ list_ascii_of_string (first_component rel).
Proof.
  induction rel as [|c rest IH]; simpl.
  - apply not_elem_of_nil.
  - destruct (Ascii.eqb_spec c "/"%char) as [->|Hc]; simpl.
    + apply not_elem_of_nil.
    + apply not_elem_of_cons. split; [congruence|done].
Qed.

Lemma first_component_tail (rel rest : string) (c : ascii) :
  first_component rel = String c rest →
  "/"%char ∉ list_ascii_of_string rest.
Proof.
  intros E. pose proof (first_component_no_slash rel) as N.
  rewrite E in N. simpl in N. by apply not_elem_of_cons in N as [_ N].
Qed.

Lemma replace_hyphens_no_hyphen (x : string) :
  "-"%char ∉ list_ascii_of_string (replace_hyphens x).
Proof.
  induction x as [|c rest IH]; simpl.
  - apply not_elem_of_nil.
  - apply not_elem_of_cons. split; [|done].
    destruct (Ascii.eqb_spec c "-"%char) as [->|Hc]; congruence.
Qed.

Lemma replace_hyphens_length (x : string) :
  String.length (replace_hyphens x) = String.length x.
Proof. induction x as [|c rest IH]; simpl; congruence. Qed.

Lemma replace_hyphens_get (x : string) (i : nat) :
  String.get i (replace_hyphens x)
  = (λ c, if Ascii.eqb c "-"%char then "/"%char else c) <$> String.get i x.
Proof.
  revert i. induction x as [|c rest IH]; intros i; simpl; [done|].
  destruct i as [|i]; [done|]. apply IH.
Qed.

(** X14: when the directory of a transcript under the projects directory
    starts with a hyphen, the project path is the rest of its name,
    character by character, with a slash for every hyphen: it is as long
    as the rest, has no hyphen left, and each of its slashes stands for a
    hyphen of the name, which has no slash of its own. *)
Theorem extract_project_path_decodes (fs : Files) (file_path rest : string) :
  first_component (relative_to_projects_dir fs file_path)
  = String "-"%char rest →
  let path := extract_project_path fs file_path in
  ("-"%char ∉ list_ascii_of_string path)
  ∧ String.length path = String.length rest
  ∧ ("/"%char ∉ list_ascii_of_string rest)
  ∧ ∀ i, String.get i path
         = (λ c, if Ascii.eqb c "-"%char then "/"%char else c)
             <$> String.get i rest.
Proof.
  intros E path. pose proof (first_component_tail _ _ _ E) as N.
  assert (path = replace_hyphens rest) as ->.
  { unfold path, extract_project_path. by rewrite E. }
  split_and!; [apply replace_hyphens_no_hyphen|apply replace_hyphens_length
              |done|apply replace_hyphens_get].
Qed.

Lemma extract_project_path_decodes_witness :
  String.length (extract_project_path Sample.transcript "a.jsonl")
  = String.length "test-project".
Proof.
  apply (extract_project_path_decodes Sample.transcript "a.jsonl"
           "test-project").
  vm_compute. reflexivity.
Defined.
(** ** [sync_teams] ([sync-teams.ts]) *)

Lemma team_call_inv {DB : Type} `{!TeamStore DB} (c : TeamCall)
    (r r1 : TeamRun DB) :
  team_call c r = Some r1 →
  ∃ db', team_exec c (team_db r) = Some db'
         ∧ r1 = mkTeamRun db' (team_result r) (team_journal r ++ [c]).
Proof.
  unfold team_call. destruct (team_exec c (team_db r)) as [db'|]; [|done].
  intros [= <-]. by exists db'.
Qed.

Section TeamInvariant.
Context {DB : Type} `{!TeamStore DB} (fs : TeamFiles).
Variable P : TeamRun DB → Prop.
Hypothesis P_step : ∀ (r : TeamRun DB) (c : TeamCall) (db' : DB),
  P r → issued (team_journal r) c → team_exec c (team_db r) = Some db' →
  P (counted_call_of c db' r).

Lemma sync_members_invariant (team_id : string) (config : TeamConfig.t)
    (members : list TeamMember.t) (r : TeamRun DB) :
  P r → UpsertTeam (team_arg team_id config) ∈ team_journal r →
  P (sync_members team_id config members r).
Proof.
  revert r. induction members as [|member rest IH]; intros r Hr Hin; [done|].
  cbn [sync_members].
  destruct (team_call _ r) as [r1|] eqn:E; [|done].
  apply team_call_inv in E as (db' & E & ->).
  apply IH.
  - apply (P_step r (UpsertTeamMember (member_arg team_id config member)) db');
      [done| |done].
    by exists team_id, config, member.
  - cbn. apply elem_of_app. by left.
Qed.

Lemma sync_team_invariant (teams_dir team_dir : string) (r : TeamRun DB) :
  P r → P (sync_team fs teams_dir team_dir r).
Proof.
  intros Hr. unfold sync_team.
  destruct (negb _); [done|].
  destruct (read_config fs _) as [config|]; [|done].
  destruct (team_call _ r) as [r1|] eqn:E; [|done].
  apply team_call_inv in E as (db' & E & ->).
  assert (P (counted_call_of (UpsertTeam (team_arg team_dir config)) db' r))
    as H1.
  { apply P_step; [done| |done]. by exists team_dir, config. }
  destruct (TeamConfig.members config) as [members|]; [|done].
  apply sync_members_invariant; [done|].
  cbn. apply elem_of_app. right. by apply list_elem_of_singleton.
Qed.

Lemma sync_task_invariant (team_tasks_dir team_dir task_file : string)
    (r : TeamRun DB) :
  P r → P (sync_task fs team_tasks_dir team_dir task_file r).
Proof.
  intros Hr. unfold sync_task.
  destruct (read_task fs _) as [task|]; [|done].
  destruct (team_call _ r) as [r1|] eqn:E; [|done].
  apply team_call_inv in E as (db' & E & ->).
  apply (P_step r (UpsertTeamTask (task_arg team_dir task)) db'); [done| |done].
  by exists team_dir, task.
Qed.

Lemma foldl_invariant {A : Type} (body : TeamRun DB → A → TeamRun DB)
    (xs : list A) (r : TeamRun DB) :
  (∀ r x, P r → P (body r x)) → P r → P (foldl body r xs).
Proof.
  intros Hb. revert r. induction xs as [|x xs IH]; intros r Hr; [done|].
  simpl. apply IH. by apply Hb.
Qed.

Lemma for_each_invariant {A : Type} (body : A → TeamRun DB → Settled DB)
    (xs : list A) (r : TeamRun DB) :
  (∀ x r, P r → P (run_of (body x r))) → P r →
  P (run_of (for_each body xs r)).
Proof.
  intros Hb. revert r. induction xs as [|x xs IH]; intros r Hr; [done|].
  simpl. specialize (Hb x r Hr).
  destruct (body x r) as [r'|r']; [by apply IH|done].
Qed.

Lemma sync_teams_dir_invariant (teams_dir : string) (r : TeamRun DB) :
  P r → P (run_of (sync_teams_dir fs teams_dir r)).
Proof.
  intros Hr. unfold sync_teams_dir.
  destruct (negb _); [done|].
  destruct (readdirSync fs teams_dir) as [entries|]; [|done].
  simpl. apply foldl_invariant; [|done].
  intros. by apply sync_team_invariant.
Qed.

Lemma sync_team_tasks_invariant (tasks_dir team_dir : string) (r : TeamRun DB) :
  P r → P (run_of (sync_team_tasks fs tasks_dir team_dir r)).
Proof.
  intros Hr. unfold sync_team_tasks.
  destruct (readdirSync fs _) as [entries|]; [|done].
  simpl. apply foldl_invariant; [|done].
  intros. by apply sync_task_invariant.
Qed.

Lemma sync_tasks_dir_invariant (tasks_dir : string) (r : TeamRun DB) :
  P r → P (run_of (sync_tasks_dir fs tasks_dir r)).
Proof.
  intros Hr. unfold sync_tasks_dir.
  destruct (negb _); [done|].
  destruct (readdirSync fs tasks_dir) as [entries|]; [|done].
  apply for_each_invariant; [|done].
  intros. by apply sync_team_tasks_invariant.
Qed.

Lemma sync_teams_invariant (db : DB) :
  P (new_team_run db) → P (run_of (sync_teams fs db)).
Proof.
  intros H0. unfold sync_teams.
  pose proof (for_each_invariant (sync_teams_dir fs) (TEAMS_DIRS fs)
                (new_team_run db) sync_teams_dir_invariant H0) as H1.
  destruct (for_each (sync_teams_dir fs) _ _) as [r|r]; [|done].
  by apply for_each_invariant; [apply sync_tasks_dir_invariant|].
Qed.

End TeamInvariant.

Lemma count_calls_snoc (Q : TeamCall → bool) (js : list TeamCall) (c : TeamCall) :
  count_calls Q (js ++ [c]) = (count_calls Q js + if Q c then 1 else 0)%nat.
Proof.
  unfold count_calls. rewrite List.filter_app, List.length_app. simpl.
  by destruct (Q c).
Qed.

Lemma replay_snoc {DB : Type} `{!TeamStore DB} (js : list TeamCall)
    (c : TeamCall) (db d : DB) :
  replay js db = Some d → replay (js ++ [c]) db = team_exec c d.
Proof. unfold replay. rewrite foldl_app. simpl. by intros ->. Qed.

(** X15: however the run of [sync_teams] ends, each counter of its result
    is the number of calls of its kind that returned, a call that threw
    being counted nowhere, and the store is what these calls, made in
    their order on the store the run was given, leave. *)
Theorem sync_teams_counts {DB : Type} `{!TeamStore DB} (fs : TeamFiles)
    (db : DB) :
  let r := run_of (sync_teams fs db) in
  teams_synced (team_result r) = count_calls is_upsert_team (team_journal r)
  ∧ members_synced (team_result r)
    = count_calls is_upsert_team_member (team_journal r)
  ∧ tasks_synced (team_result r)
    = count_calls is_upsert_team_task (team_journal r)
  ∧ replay (team_journal r) db = Some (team_db r).
Proof.
  apply (sync_teams_invariant fs (λ r,
    teams_synced (team_result r) = count_calls is_upsert_team (team_journal r)
    ∧ members_synced (team_result r)
      = count_calls is_upsert_team_member (team_journal r)
    ∧ tasks_synced (team_result r)
      = count_calls is_upsert_team_task (team_journal r)
    ∧ replay (team_journal r) db = Some (team_db r))); [|done].
  intros r c db' (Ht & Hm & Hk & Hr) _ E.
  destruct c;
    unfold counted_call_of, incr_teams_synced, incr_members_synced,
      incr_tasks_synced;
    cbn [team_result team_journal team_db teams_synced members_synced
         tasks_synced];
    rewrite !count_calls_snoc, (replay_snoc _ _ _ _ Hr);
    cbn [is_upsert_team is_upsert_team_member is_upsert_team_task];
    split_and!; try done; lia.
Qed.

(** X16: a member is written only after its team: before every call of
    [upsert_team_member] that returned, the same run has made a call of
    [upsert_team] that returned, for the team the member names. *)
Theorem members_follow_their_team {DB : Type} `{!TeamStore DB} (fs : TeamFiles)
    (db : DB) (before after : list TeamCall) (m : TeamMemberArg.t) :
  team_journal (run_of (sync_teams fs db))
  = before ++ UpsertTeamMember m :: after →
  ∃ t, UpsertTeam t ∈ before ∧ TeamArg.id t = TeamMemberArg.team_id m.
Proof.
  revert before after m.
  apply (sync_teams_invariant fs (λ r, ∀ before after m,
    team_journal r = before ++ UpsertTeamMember m :: after →
    ∃ t, UpsertTeam t ∈ before ∧ TeamArg.id t = TeamMemberArg.team_id m)).
  - intros r c db' IH Hc _ before after m E.
    assert (team_journal (counted_call_of c db' r) = team_journal r ++ [c])
      as J by by destruct c.
    rewrite J in E. clear J.
    destruct after as [|x after _] using rev_ind.
    + apply (app_inj_tail (team_journal r) before) in E as [<- ->].
      destruct Hc as (team_id & config & member & -> & Hin).
      by exists (team_arg team_id config).
    + change (before ++ UpsertTeamMember m :: after ++ [x])
        with (before ++ (UpsertTeamMember m :: after) ++ [x]) in E.
      rewrite app_assoc in E. apply app_inj_tail in E as [E _].
      by apply (IH before after m).
  - intros before after m E. by destruct before.
Qed.

Lemma members_follow_their_team_witness :
  ∃ t, UpsertTeam t ∈ take 1 (team_journal TeamSample.run)
       ∧ TeamArg.id t = "crew".
Proof.
  apply (members_follow_their_team TeamSample.files []
           (take 1 (team_journal TeamSample.run))
           (drop 2 (team_journal TeamSample.run))
           (member_arg "crew" TeamSample.crew TeamSample.alice)).
  vm_compute. reflexivity.
Defined.

Lemma task_id_team (x y s t : string) :
  no_colon x → no_colon y →
  (x ++ ":" ++ s)%string = (y ++ ":" ++ t)%string → x = y ∧ s = t.
Proof.
  unfold no_colon. revert y.
  induction x as [|a x IH]; intros [|b y] Hx Hy E; simpl in *.
  - by injection E.
  - injection E as <- _. exfalso. apply Hy. by left.
  - injection E as -> _. exfalso. apply Hx. by left.
  - injection E as <- E.
    apply not_elem_of_cons in Hx as [_ Hx].
    apply not_elem_of_cons in Hy as [_ Hy].
    by destruct (IH y Hx Hy E) as [-> ->].
Qed.

(** X17: the id of a task is the name of the directory of its team, a
    colon and the id the file gives; so two tasks the run has written
    under one id, for teams whose directory names have no colon, are of
    one team. *)
Theorem task_ids_tell_teams_apart {DB : Type} `{!TeamStore DB}
    (fs : TeamFiles) (db : DB) (a b : TeamTaskArg.t) :
  let journal := team_journal (run_of (sync_teams fs db)) in
  UpsertTeamTask a ∈ journal → UpsertTeamTask b ∈ journal →
  no_colon (TeamTaskArg.team_id a) → no_colon (TeamTaskArg.team_id b) →
  TeamTaskArg.id a = TeamTaskArg.id b →
  TeamTaskArg.team_id a = TeamTaskArg.team_id b.
Proof.
  intros journal Ha Hb Na Nb E.
  assert (∀ x, UpsertTeamTask x ∈ journal →
               ∃ team_dir task, x = task_arg team_dir task) as Shape.
  { unfold journal.
    apply (sync_teams_invariant fs (λ r, ∀ x,
      UpsertTeamTask x ∈ team_journal r →
      ∃ team_dir task, x = task_arg team_dir task)).
    - intros r c db' IH Hc _ x Hx.
      assert (team_journal (counted_call_of c db' r) = team_journal r ++ [c])
        as J by by destruct c.
      rewrite J in Hx. apply elem_of_app in Hx as [Hx|Hx]; [by apply IH|].
      apply list_elem_of_singleton in Hx as <-. exact Hc.
    - intros x Hx. by apply elem_of_nil in Hx. }
  destruct (Shape a Ha) as (da & ta & ->).
  destruct (Shape b Hb) as (db0 & tb & ->).
  simpl in *. by destruct (task_id_team _ _ _ _ Na Nb E).
Qed.

Lemma task_ids_tell_teams_apart_witness :
  TeamTaskArg.team_id (task_arg "crew" TeamSample.task_1)
  = TeamTaskArg.team_id (task_arg "crew" TeamSample.task_1_preview).
Proof.
  apply (task_ids_tell_teams_apart TeamSample.files []).
  - vm_compute. repeat constructor.
  - vm_compute. repeat constructor.
  - apply (bool_decide_unpack _). vm_compute. reflexivity.
  - apply (bool_decide_unpack _). vm_compute. reflexivity.
  - reflexivity.
Defined.

(** Without the condition on the names two teams can share a task id. *)
Example task_ids_collide :
  TeamTaskArg.id (task_arg "a:b" (TaskFile.mk "c" "s" None None None))
  = TeamTaskArg.id (task_arg "a" (TaskFile.mk "b:c" "s" None None None)).
Proof. reflexivity. Qed.

(** X18: the filter of the task files keeps the names that end in
    [.json] and no other: its second test, against the name of the lock
    file, never decides, since that name does not end in [.json]. *)
Theorem task_files_end_in_json (f : string) :
  is_task_file f = ends_with f ".json".
Proof.
  unfold is_task_file.
  destruct (String.eqb_spec f ".lock") as [->|_]; [done|].
  apply andb_true_r.
Qed.

Lemma for_each_fulfilled {DB A : Type} (body : A → TeamRun DB → Settled DB)
    (xs : list A) (r : TeamRun DB) :
  (∀ x r, ∃ r', body x r = Fulfilled r') →
  ∃ r', for_each body xs r = Fulfilled r'.
Proof.
  intros Hb. revert r. induction xs as [|x xs IH]; intros r; simpl.
  - by eexists.
  - destruct (Hb x r) as [r' ->]. apply IH.
Qed.

(** X19: no failure of the store ends the run: when every directory can
    be listed, the promise of [sync_teams] is fulfilled, whatever the
    calls on the store do. *)
Theorem sync_teams_survives_the_store {DB : Type} `{!TeamStore DB}
    (fs : TeamFiles) (db : DB) :
  (∀ path, is_Some (readdirSync fs path)) →
  ∃ r, sync_teams fs db = Fulfilled r.
Proof.
  intros Hl. unfold sync_teams.
  destruct (for_each_fulfilled (sync_teams_dir fs) (TEAMS_DIRS fs)
              (new_team_run db)) as [r ->].
  { intros x r. unfold sync_teams_dir.
    destruct (negb _); [by eexists|].
    destruct (Hl x) as [entries ->]. by eexists. }
  apply for_each_fulfilled.
  intros x r'. unfold sync_tasks_dir.
  destruct (negb _); [by eexists|].
  destruct (Hl x) as [entries ->].
  apply for_each_fulfilled.
  intros y r''. unfold sync_team_tasks.
  destruct (Hl (join fs [x; y])) as [es ->]. by eexists.
Qed.

Lemma sync_teams_survives_the_store_witness :
  ∃ r, sync_teams TeamSample.files [] = Fulfilled r.
Proof.
  apply (sync_teams_survives_the_store TeamSample.files []).
  intros path. unfold TeamSample.files, readdirSync, TeamSample.listing.
  repeat (case_match; [by eexists|]). by eexists.
Defined.
